(** * torchsummary: the instrumentation walker, the observer and [summary]

    A shallow embedding of [torchsummary/torchsummary.py].  Python objects
    with identity (modules, parameter tensors, hook handles, the per-call
    [summary_list] and [idx] objects) are modelled with explicit identities
    and an explicit store; exceptions are modelled with a result type. *)

From Stdlib Require Import ZArith List Bool Lia.
From stdpp Require Import base decidable option list gmap strings fin_maps.

Set Warnings "-register-all".

(** ** Python values, exceptions *)

Inductive exn_class :=
  | AssertionError | ValueError | TypeError | IndexError | RuntimeError
  | UserException (name : string)       (* any other subclass of Exception *)
  | KeyboardInterrupt | SystemExit
  | UserBaseException (name : string).  (* BaseException, not Exception *)

(** [isinstance(e, Exception)], the test made by [except Exception]. *)
Definition is_Exception (c : exn_class) : bool :=
  match c with
  | KeyboardInterrupt | SystemExit | UserBaseException _ => false
  | _ => true
  end.

Record exn := { exn_cls : exn_class; exn_msg : string }.

Inductive result (A : Type) :=
  | Ok (a : A)
  | Raise (e : exn).
Arguments Ok {A} a.
Arguments Raise {A} e.

Definition bind {A B} (r : result A) (k : A -> result B) : result B :=
  match r with
  | Ok a => k a
  | Raise e => Raise e
  end.

Notation "x <- c1 ;; c2" := (bind c1 (fun x => c2))
  (at level 100, c1 at next level, right associativity).

Definition raise {A} (c : exn_class) : result A :=
  Raise {| exn_cls := c; exn_msg := EmptyString |}.

Fixpoint map_result {A B} (f : A -> result B) (l : list A)
  : result (list B) :=
  match l with
  | [] => Ok []
  | a :: l' => b <- f a ;; bs <- map_result f l' ;; Ok (b :: bs)
  end.

(** ** Tensors, at the level of shapes

    The content of a tensor is kept as a symbolic term that records which
    torch operations built it. *)

Inductive device := Cpu | Cuda | OtherDevice (type : string).

Definition device_type (d : device) : string :=
  match d with
  | Cpu => "cpu"
  | Cuda => "cuda"
  | OtherDevice s => s
  end.

Inductive dtype := torch_float | torch_dtype (name : string).

Inductive data :=
  | Given (tag : positive)              (* a tensor supplied by the caller *)
  | Rand (size : list Z)                (* torch.rand( *size ) *)
  | Ones (n : Z)                        (* torch.ones(n) *)
  | Unsqueeze (d : data) (dim : Z)
  | Cat (ds : list data) (dim : Z).

Record tensor := {
  t_shape : list Z;
  t_dtype : dtype;
  t_device : device;
  t_data : data;
}.

Definition tensor_to (t : tensor) (d : device) : tensor :=
  {| t_shape := t_shape t; t_dtype := t_dtype t; t_device := d;
     t_data := t_data t |}.

Definition tensor_type (t : tensor) (ty : dtype) : tensor :=
  {| t_shape := t_shape t; t_dtype := ty; t_device := t_device t;
     t_data := t_data t |}.

(** torch's dimension wrapping: [dim] must lie in [[-n, n-1]]. *)
Definition wrap_dim (dim : Z) (n : Z) : result nat :=
  if ((- n <=? dim) && (dim <? n))%Z
  then Ok (Z.to_nat (if (dim <? 0)%Z then dim + n else dim))
  else raise IndexError.

(** Sizes as the caller writes them: ints, lists and tuples, nested at
    will. *)
Inductive size_spec :=
  | SInt (z : Z)
  | SList (l : list size_spec)
  | STuple (l : list size_spec).

Definition int64_min : Z := (-9223372036854775808)%Z.
Definition int64_max : Z := 9223372036854775807%Z.

(** One dimension of a size: an int that fits 64 bits; anything else makes
    torch's argument parser raise [TypeError]. *)
Definition dim_of (s : size_spec) : result Z :=
  match s with
  | SInt z =>
      if ((int64_min <=? z) && (z <=? int64_max))%Z then Ok z
      else raise TypeError
  | _ => raise TypeError
  end.

(** The size [torch.rand] reads off its positional arguments: one or more
    ints, or a single list or tuple of ints.  Without arguments, or with
    any other mixture, the call raises [TypeError]. *)
Definition rand_size (args : list size_spec) : result (list Z) :=
  match args with
  | [] => raise TypeError
  | [SList l] | [STuple l] => map_result dim_of l
  | _ => map_result dim_of args
  end.

(** [torch.rand( *args )]; a negative dimension is refused once the
    arguments are parsed.  Running out of memory is not modelled. *)
Definition torch_rand (args : list size_spec) : result tensor :=
  size <- rand_size args ;;
  if forallb (fun z => (0 <=? z)%Z) size
  then Ok {| t_shape := size; t_dtype := torch_float; t_device := Cpu;
             t_data := Rand size |}
  else raise RuntimeError.

Definition torch_ones (n : Z) : result tensor :=
  if (0 <=? n)%Z
  then Ok {| t_shape := [n]; t_dtype := torch_float; t_device := Cpu;
             t_data := Ones n |}
  else raise RuntimeError.

(** [t.unsqueeze(dim)]: a dimension of size one is inserted at [dim], which
    may be any of the [n + 1] positions of an [n]-dimensional tensor. *)
Definition unsqueeze (t : tensor) (dim : Z) : result tensor :=
  k <- wrap_dim dim (Z.of_nat (length (t_shape t)) + 1) ;;
  Ok {| t_shape := take k (t_shape t) ++ 1%Z :: drop k (t_shape t);
        t_dtype := t_dtype t; t_device := t_device t;
        t_data := Unsqueeze (t_data t) dim |}.

(** Two shapes agree outside dimension [k]. *)
Definition same_off_dim (k : nat) (s1 s2 : list Z) : bool :=
  bool_decide (take k s1 = take k s2 /\ drop (S k) s1 = drop (S k) s2
               /\ length s1 = length s2).

(** [torch.cat(ts, dim)]: the shapes agree outside [dim], the sizes along
    [dim] are added. *)
Definition torch_cat (ts : list tensor) (dim : Z) : result tensor :=
  match ts with
  | [] => raise RuntimeError
  | t0 :: _ =>
      k <- wrap_dim dim (Z.of_nat (length (t_shape t0))) ;;
      if forallb (fun t => same_off_dim k (t_shape t0) (t_shape t)) ts
      then
        let total :=
          fold_right Z.add 0%Z (map (fun t => nth k (t_shape t) 0%Z) ts) in
        Ok {| t_shape := take k (t_shape t0) ++ total :: drop (S k) (t_shape t0);
              t_dtype := t_dtype t0; t_device := t_device t0;
              t_data := Cat (map t_data ts) dim |}
      else raise RuntimeError
  end.

Inductive pyval :=
  | PTensor (t : tensor)
  | PInt (z : Z)
  | PStr (s : string)
  | PNone
  | PList (l : list pyval)
  | PTuple (l : list pyval).

(** [torch.is_tensor(v)] *)
Definition is_tensor (v : pyval) : bool :=
  match v with PTensor _ => true | _ => false end.

(** ** The module graph

    A module object has an identity ([m_id], Python's [is]), a class with
    its method resolution order, the parameters and the submodules that
    were registered on it directly.  The same object may be registered in
    several places: aliasing is the same [m_id] occurring more than once. *)

Record param := {
  p_id : positive;
  p_nelement : nat;
  p_requires_grad : bool;
}.

Inductive nn_Module := mkModule {
  m_id : positive;
  m_mro : list string;
  m_parameters : list param;
  m_modules : list nn_Module;
}.

(** [a is b] *)
Definition is_ (a b : nn_Module) : bool := bool_decide (m_id a = m_id b).

Definition isinstance (m : nn_Module) (classes : list string) : bool :=
  existsb (fun c => bool_decide (c ∈ classes)) (m_mro m).

Definition LAYER_MODULES : list string := ["MultiheadAttention"%string].

(** [module.named_modules(memo)]: the module itself, then the modules below
    it, each object once; [memo] is the set of identities already yielded. *)
Fixpoint named_modules (m : nn_Module) (memo : gset positive)
  : list nn_Module * gset positive :=
  match m with
  | mkModule i _ _ subs =>
      if decide (i ∈ memo) then ([], memo)
      else
        let '(below, memo') :=
          (fix each (subs : list nn_Module) (memo : gset positive) :=
             match subs with
             | [] => ([], memo)
             | c :: subs' =>
                 let '(l1, memo1) := named_modules c memo in
                 let '(l2, memo2) := each subs' memo1 in
                 (l1 ++ l2, memo2)
             end) subs ({[ i ]} ∪ memo) in
        (m :: below, memo')
  end.

(** [module.modules()] *)
Definition modules (m : nn_Module) : list nn_Module :=
  fst (named_modules m ∅).

(** Iteration that skips objects already seen, as [named_children] and
    [named_parameters] do with their memo set. *)
Fixpoint unique_by {A} (key : A -> positive) (l : list A)
    (memo : gset positive) : list A :=
  match l with
  | [] => []
  | x :: l' =>
      if decide (key x ∈ memo) then unique_by key l' memo
      else x :: unique_by key l' ({[ key x ]} ∪ memo)
  end.

(** [module.children()]: the directly registered submodules, each object
    once. *)
Definition children (m : nn_Module) : list nn_Module :=
  unique_by m_id (m_modules m) ∅.

(** [module.parameters(recurse=False)]: the directly owned parameter
    tensors, each tensor once. *)
Definition parameters (m : nn_Module) : list param :=
  unique_by p_id (m_parameters m) ∅.

(** ** Layer records

    [layer_info.py] is a sibling module of [torchsummary.py]; the record
    and its three methods follow the specification (sections 3 and 4.2). *)

Record LayerInfo := {
  identity : positive;                  (* id(module) *)
  li_module : nn_Module;
  depth : Z;
  order : Z;
  class_name : string;
  output_shape : option (list (list Z)); (* None is the "unknown" marker *)
  num_params_trainable : nat;
  num_params_frozen : nat;
  is_recursive : bool;
}.

(** Modelled from the spec: the constructor [LayerInfo(module, depth,
    depth_index)] of the missing [layer_info.py]; it stores the node's
    identity, its class label, the depth and the order it is given. *)
Definition LayerInfo_init (module : nn_Module) (depth depth_index : Z)
  : LayerInfo :=
  {| identity := m_id module; li_module := module;
     depth := depth; order := depth_index;
     class_name := hd EmptyString (m_mro module);
     output_shape := None;
     num_params_trainable := 0; num_params_frozen := 0;
     is_recursive := false |}.

Definition shape_of (v : pyval) : option (list Z) :=
  match v with PTensor t => Some (t_shape t) | _ => None end.

(** Modelled from the spec: [LayerInfo.calculate_output_size] of the missing
    [layer_info.py].  A tensor gives one shape, a list or tuple of tensors
    one shape per element, anything else the "unknown" marker. *)
Definition calculate_output_size (info : LayerInfo) (outputs : pyval)
    (batch_dim : Z) : LayerInfo :=
  let shapes :=
    match outputs with
    | PTensor t => Some [t_shape t]
    | PList l | PTuple l => mapM shape_of l
    | _ => None
    end in
  {| identity := identity info; li_module := li_module info;
     depth := depth info; order := order info;
     class_name := class_name info;
     output_shape := shapes;
     num_params_trainable := num_params_trainable info;
     num_params_frozen := num_params_frozen info;
     is_recursive := is_recursive info |}.

Definition sum_nelement (ps : list param) : nat :=
  foldr (fun p n => p_nelement p + n) 0 ps.

(** Modelled from the spec: [LayerInfo.calculate_num_params] of the missing
    [layer_info.py].  Only the directly owned parameters are counted, split
    by their gradient flag. *)
Definition calculate_num_params (info : LayerInfo) : LayerInfo :=
  let ps := parameters (li_module info) in
  {| identity := identity info; li_module := li_module info;
     depth := depth info; order := order info;
     class_name := class_name info;
     output_shape := output_shape info;
     num_params_trainable := sum_nelement (List.filter p_requires_grad ps);
     num_params_frozen :=
       sum_nelement (List.filter (fun p => negb (p_requires_grad p)) ps);
     is_recursive := is_recursive info |}.

(** The parameter tensors a record owns, and the tensors attributed by a
    list of records: those owned by its records that are not recursive. *)
Definition owned (r : LayerInfo) : list param := parameters (li_module r).

Definition attributed (summary_list : list LayerInfo) : list param :=
  flat_map owned (List.filter (fun r => negb (is_recursive r)) summary_list).

(** The set of parameter identities already attributed.  The observer hands
    [check_recursive] the record list and nothing else, so the set is read
    off the records. *)
Definition seen (summary_list : list LayerInfo) : gset positive :=
  list_to_set (map p_id (attributed summary_list)).

(** Modelled from the spec: [LayerInfo.check_recursive] of the missing
    [layer_info.py].  The record is recursive when any parameter identity it
    owns is already in the set of attributed identities. *)
Definition check_recursive (info : LayerInfo) (summary_list : list LayerInfo)
  : LayerInfo :=
  {| identity := identity info; li_module := li_module info;
     depth := depth info; order := order info;
     class_name := class_name info;
     output_shape := output_shape info;
     num_params_trainable := num_params_trainable info;
     num_params_frozen := num_params_frozen info;
     is_recursive :=
       existsb (fun p => bool_decide (p_id p ∈ seen summary_list))
               (owned info) |}.

(** ** The pass context and the observer *)

Record pass_ctx := {
  idx : gmap Z Z;
  summary_list : list LayerInfo;
}.

Definition empty_ctx : pass_ctx := {| idx := ∅; summary_list := [] |}.

(** The closure [hook] of [apply_hooks]; [curr_depth] and [batch_dim] are
    captured, [idx] and [summary_list] are the shared objects in [ctx]. *)
Definition hook (curr_depth batch_dim : Z) (module : nn_Module)
    (outputs : pyval) (ctx : pass_ctx) : pass_ctx :=
  let idx' :=
    <[ curr_depth := (default 0 (idx ctx !! curr_depth) + 1)%Z ]> (idx ctx) in
  let info := LayerInfo_init module curr_depth (idx' !!! curr_depth) in
  let info := calculate_output_size info outputs batch_dim in
  let info := calculate_num_params info in
  let info := check_recursive info (summary_list ctx) in
  {| idx := idx'; summary_list := summary_list ctx ++ [info] |}.

(** ** The world a call of [summary] runs in

    Forward hooks live on the module objects and outlive the call that
    registered them unless their handle is removed; the closures keep their
    [summary_list] and [idx] objects alive.  [w_hooks] is the union of the
    modules' [_forward_hooks] dictionaries, in registration order, keyed by
    the handle's id; [w_heap] holds the objects captured by the closures. *)

Record hook_entry := {
  he_module : nn_Module;                (* the module the hook sits on *)
  he_depth : Z;                         (* curr_depth, captured *)
  he_batch_dim : Z;                     (* batch_dim, captured *)
  he_sink : nat;                        (* summary_list and idx, captured *)
}.

Record FormattingOptions := {
  branching : bool;
  display_depth : Z;
  verbosity : Z;
  columns : list string;
  column_width : Z;
}.

Record ModelStatistics := {
  records : list LayerInfo;
  input_shape_descriptor : list size_spec;
  render_policy : FormattingOptions;
  total_params : nat;
  trainable_params : nat;
  frozen_params : nat;
}.

Inductive message :=
  | MsgFailed (executed : list LayerInfo)
      (* "Failed to run torchsummary, printing sizes of executed layers: .." *)
  | MsgResults (results : ModelStatistics).

Record world := {
  w_hooks : list (nat * hook_entry);
  w_next_handle : nat;
  w_heap : gmap nat pass_ctx;
  w_next_obj : nat;
  w_stdout : list message;
  w_calls : list (list pyval * gmap string pyval);
}.

Definition empty_world : world :=
  {| w_hooks := []; w_next_handle := 0; w_heap := ∅; w_next_obj := 0;
     w_stdout := []; w_calls := [] |}.

Definition set_hooks (f : list (nat * hook_entry) -> list (nat * hook_entry))
    (w : world) : world :=
  {| w_hooks := f (w_hooks w); w_next_handle := w_next_handle w;
     w_heap := w_heap w; w_next_obj := w_next_obj w;
     w_stdout := w_stdout w; w_calls := w_calls w |}.

Definition set_heap (f : gmap nat pass_ctx -> gmap nat pass_ctx)
    (w : world) : world :=
  {| w_hooks := w_hooks w; w_next_handle := w_next_handle w;
     w_heap := f (w_heap w); w_next_obj := w_next_obj w;
     w_stdout := w_stdout w; w_calls := w_calls w |}.

Definition print (msg : message) (w : world) : world :=
  {| w_hooks := w_hooks w; w_next_handle := w_next_handle w;
     w_heap := w_heap w; w_next_obj := w_next_obj w;
     w_stdout := w_stdout w ++ [msg]; w_calls := w_calls w |}.

Definition log_call (positional : list pyval) (kw : gmap string pyval)
    (w : world) : world :=
  {| w_hooks := w_hooks w; w_next_handle := w_next_handle w;
     w_heap := w_heap w; w_next_obj := w_next_obj w;
     w_stdout := w_stdout w; w_calls := w_calls w ++ [(positional, kw)] |}.

(** The fresh [summary_list] and [idx] objects of one call. *)
Definition new_ctx (w : world) : nat * world :=
  (w_next_obj w,
   {| w_hooks := w_hooks w; w_next_handle := w_next_handle w;
      w_heap := <[ w_next_obj w := empty_ctx ]> (w_heap w);
      w_next_obj := S (w_next_obj w);
      w_stdout := w_stdout w; w_calls := w_calls w |}).

(** [module.register_forward_hook(hook)] returns a handle with a fresh id. *)
Definition register_forward_hook (e : hook_entry) (w : world) : nat * world :=
  (w_next_handle w,
   {| w_hooks := w_hooks w ++ [(w_next_handle w, e)];
      w_next_handle := S (w_next_handle w);
      w_heap := w_heap w; w_next_obj := w_next_obj w;
      w_stdout := w_stdout w; w_calls := w_calls w |}).

(** [handle.remove()] *)
Definition remove (h : nat) (w : world) : world :=
  set_hooks (List.filter (fun he => negb (bool_decide (fst he = h)))) w.

(** ** The instrumentation walker *)

Definition is_empty {A} (l : list A) : bool :=
  match l with [] => true | _ => false end.

(** The test of [apply_hooks] that decides whether [module] gets a hook. *)
Definition instrumented (module orig_model : nn_Module) : bool :=
  let submodules :=
    List.filter (fun m => negb (is_ m orig_model)) (modules module) in
  negb (is_ module orig_model)
  || isinstance module LAYER_MODULES
  || is_empty submodules.

(** [apply_hooks]; the state threaded through is the [hooks] list and the
    world, [sink] stands for the [summary_list] and [idx] arguments.  The
    inner loop runs over [module.children()]: the registered submodules,
    skipping objects already met. *)
Fixpoint apply_hooks (module orig_model : nn_Module) (depth : Z) (sink : nat)
    (batch_dim curr_depth : Z) (st : list nat * world) : list nat * world :=
  match module with
  | mkModule _ _ _ subs =>
      let st :=
        if instrumented module orig_model then
          let '(h, w) :=
            register_forward_hook
              {| he_module := module; he_depth := curr_depth;
                 he_batch_dim := batch_dim; he_sink := sink |} (snd st) in
          (fst st ++ [h], w)
        else st in
      if (curr_depth <=? depth)%Z then
        (fix each (subs : list nn_Module) (memo : gset positive)
             (st : list nat * world) :=
           match subs with
           | [] => st
           | child :: subs' =>
               if decide (m_id child ∈ memo) then each subs' memo st
               else
                 each subs' ({[ m_id child ]} ∪ memo)
                   (apply_hooks child orig_model depth sink batch_dim
                      (curr_depth + 1) st)
           end) subs ∅ st
      else st
  end.

(** ** Input sizes and input tensors *)

(** The generator [flatten] of [get_correct_input_sizes]. *)
Fixpoint flatten_item (item : size_spec) : list Z :=
  match item with
  | SInt z => [z]
  | SList l | STuple l =>
      (fix each (l : list size_spec) : list Z :=
         match l with
         | [] => []
         | x :: l' => flatten_item x ++ each l'
         end) l
  end.

Definition flatten (nested_array : list size_spec) : list Z :=
  flat_map flatten_item nested_array.

Definition get_correct_input_sizes (input_size : size_spec)
  : result (list size_spec) :=
  match input_size with
  | SInt z =>
      (* a bare int: falsy when zero, not iterable otherwise *)
      if (z =? 0)%Z then raise AssertionError else raise TypeError
  | SList l | STuple l =>
      if is_empty l then raise AssertionError
      else if negb (forallb (fun size => (0 <? size)%Z) (flatten l))
      then raise AssertionError
      else
        match input_size with
        | STuple (STuple _ :: _) => Ok l
        | STuple _ => Ok [input_size]
        | SList (SInt _ :: _) => Ok [STuple l]
        | SList _ => Ok l
        | _ => raise TypeError
        end
  end.

(** The body of the loop of [get_input_tensor]. *)
Definition input_tensor_of (batch_dim : Z) (device : device)
    (sd : size_spec * dtype) : result tensor :=
  let '(size, dtype) := sd in
  input_tensor <-
    match size with
    | SList l | STuple l =>
        input_tensor <- torch_rand l ;;
        input_tensor <- unsqueeze input_tensor batch_dim ;;
        torch_cat [input_tensor; input_tensor] batch_dim
    | SInt _ =>
        input_tensor <- torch_ones batch_dim ;;
        torch_cat [input_tensor; input_tensor] 0
    end ;;
  Ok (tensor_type (tensor_to input_tensor device) dtype).

Definition get_input_tensor (input_size : list size_spec) (batch_dim : Z)
    (dtypes : list dtype) (device : device) : result (list tensor) :=
  map_result (input_tensor_of batch_dim device) (zip input_size dtypes).

(** ** Model statistics *)

Definition counted (summary_list : list LayerInfo) : list LayerInfo :=
  List.filter (fun r => negb (is_recursive r)) summary_list.

Definition sum_over {A} (f : A -> nat) (l : list A) : nat :=
  foldr (fun a n => f a + n) 0 l.

(** Modelled from the spec: the constructor of [ModelStatistics] in the
    missing [model_statistics.py], as far as the parameter totals go.  Every
    total sums over the records that are not recursive, whatever their
    depth. *)
Definition ModelStatistics_init (summary_list : list LayerInfo)
    (input_size : list size_spec) (formatting : FormattingOptions)
  : ModelStatistics :=
  {| records := summary_list;
     input_shape_descriptor := input_size;
     render_policy := formatting;
     total_params :=
       sum_over (fun r => num_params_trainable r + num_params_frozen r)
                (counted summary_list);
     trainable_params := sum_over num_params_trainable (counted summary_list);
     frozen_params := sum_over num_params_frozen (counted summary_list) |}.

(** ** The forward pass

    The forward pass is the model's own code.  What [summary] sees of it is
    the sequence of module calls that completed, each with the module object
    and its output, and whether the pass returned or raised. *)

Record torch_env := {
  cuda_is_available : bool;
  forward : nn_Module -> device -> list pyval -> gmap string pyval ->
            list (positive * pyval) * option exn;
}.

(** A hook fires: the closure works on the objects it captured. *)
Definition run_hook (outputs : pyval) (w : world) (he : hook_entry) : world :=
  set_heap
    (alter (hook (he_depth he) (he_batch_dim he) (he_module he) outputs)
           (he_sink he)) w.

(** A module call completes: the forward hooks registered on that object
    run in registration order. *)
Definition hooks_on (i : positive) (hs : list (nat * hook_entry))
  : list hook_entry :=
  List.filter (fun he => bool_decide (m_id (he_module he) = i)) (map snd hs).

Definition call_module (w : world) (call : positive * pyval) : world :=
  foldl (run_hook (snd call)) w (hooks_on (fst call) (w_hooks w)).

(** ** [summary] *)

Inductive input_data_t :=
  | InTensor (t : tensor)
  | InSpec (s : size_spec).             (* a list, a tuple, or a bare int *)

Record summary_args := {
  a_model : nn_Module;
  a_input_data : input_data_t;
  a_args : list pyval;
  a_batch_dim : Z;
  a_branching : bool;
  a_col_names : list string;
  a_col_width : Z;
  a_depth : Z;
  a_device : option device;
  a_dtypes : option (list dtype);
  a_verbose : Z;
  a_kwargs : gmap string pyval;
}.

(** Line 93: [t.to(device) if torch.is_tensor(t) else t]. *)
Definition forward_arg (device : device) (t : pyval) : pyval :=
  match t with
  | PTensor x => PTensor (tensor_to x device)
  | _ => t
  end.

(** Line 94: [{k: kwargs[k].to(device) if torch.is_tensor(kwargs[k]) else k
    for k in kwargs}]. *)
Definition forward_kwargs (device : device) (kwargs : gmap string pyval)
  : gmap string pyval :=
  map_imap (fun k v =>
              Some match v with
                   | PTensor x => PTensor (tensor_to x device)
                   | _ => PStr k
                   end) kwargs.

(** Lines 75 to 91: the input sizes and the input tensors. *)
Definition prepare_input (a : summary_args) (device : device)
  : result (list size_spec * list tensor) :=
  match a_input_data a with
  | InTensor t =>
      input_size <- get_correct_input_sizes (STuple (map SInt (t_shape t))) ;;
      Ok (input_size, [tensor_to t device])
  | InSpec (SInt _) => raise TypeError
  | InSpec ((SList l | STuple l) as input_data) =>
      dtypes <-
        match a_dtypes a with
        | Some dtypes => Ok dtypes
        | None =>
            if bool_decide (device_type device ∈ ["cpu"; "gpu"]%string)
            then Ok (replicate (length l) torch_float)
            else raise ValueError
        end ;;
      input_size <- get_correct_input_sizes input_data ;;
      x <- get_input_tensor input_size (a_batch_dim a) dtypes device ;;
      Ok (input_size, x)
  end.

Definition list_of (sink : nat) (w : world) : list LayerInfo :=
  summary_list (default empty_ctx (w_heap w !! sink)).

Definition remove_all (hooks : list nat) (w : world) : world :=
  foldl (fun w h => remove h w) w hooks.

(** Lines 72 and 73: the device, when none is given. *)
Definition device_of (env : torch_env) (a : summary_args) : device :=
  match a_device a with
  | None => if cuda_is_available env then Cuda else Cpu
  | Some device => device
  end.

(** Line 106: [FormattingOptions(branching, depth, verbose, col_names,
    col_width)]. *)
Definition formatting_of (a : summary_args) : FormattingOptions :=
  {| branching := a_branching a; display_depth := a_depth a;
     verbosity := a_verbose a; columns := a_col_names a;
     column_width := a_col_width a |}.

Definition summary (env : torch_env) (a : summary_args) (w : world)
  : result ModelStatistics * world :=
  if negb (bool_decide (a_verbose a ∈ [0; 1; 2]%Z))
  then (raise AssertionError, w)
  else
    let '(sink, w) := new_ctx w in
    let '(hooks, w) :=
      apply_hooks (a_model a) (a_model a) (a_depth a) sink (a_batch_dim a) 0
                  ([], w) in
    let device := device_of env a in
    match prepare_input a device with
    | Raise e => (Raise e, w)
    | Ok (input_size, x) =>
        let args := map (forward_arg device) (a_args a) in
        let kwargs := forward_kwargs device (a_kwargs a) in
        (* try *)
        let w := log_call (map PTensor x ++ args) kwargs w in
        let '(calls, raised) :=
          forward env (a_model a) device (map PTensor x ++ args) kwargs in
        let w := foldl call_module w calls in
        match raised with
        | Some e =>
            (* except Exception: print, raise; finally: remove the hooks *)
            let w :=
              if is_Exception (exn_cls e)
              then print (MsgFailed (list_of sink w)) w
              else w in
            (Raise e, remove_all hooks w)
        | None =>
            (* finally: remove the hooks *)
            let w := remove_all hooks w in
            let results :=
              ModelStatistics_init (list_of sink w) input_size
                                   (formatting_of a) in
            let w :=
              if (0 <? a_verbose a)%Z then print (MsgResults results) w
              else w in
            (Ok results, w)
        end
    end.

(** ** Derived notions used in the statements *)

(** The modules below [m], as registered (with repetitions). *)
Fixpoint descendants (m : nn_Module) : list nn_Module :=
  match m with
  | mkModule _ _ _ subs =>
      (fix each (subs : list nn_Module) : list nn_Module :=
         match subs with
         | [] => []
         | c :: subs' => c :: descendants c ++ each subs'
         end) subs
  end.

(** A finite object graph has no module below itself. *)
Definition not_below_itself (m : nn_Module) : Prop :=
  Forall (fun d => m_id d <> m_id m) (descendants m).

(** [path m n m']: [m'] is met [n] levels of [children()] below [m]. *)
Inductive path : nn_Module -> nat -> nn_Module -> Prop :=
  | path_here m : path m 0 m
  | path_child m c n m' :
      c ∈ children m -> path c n m' -> path m (S n) m'.

(** [reaches depth m d m' d']: a call of [apply_hooks] on [m] at
    [curr_depth = d] leads to a call on [m'] at [curr_depth = d']. *)
Inductive reaches (depth : Z) : nn_Module -> Z -> nn_Module -> Z -> Prop :=
  | reaches_here m d : reaches depth m d m d
  | reaches_child m d c m' d' :
      (d <= depth)%Z -> c ∈ children m ->
      reaches depth c (d + 1) m' d' -> reaches depth m d m' d'.

(** The calls of [apply_hooks] that [summary] sets off on [orig_model]. *)
Definition visited (orig_model : nn_Module) (depth : Z)
    (m : nn_Module) (d : Z) : Prop :=
  reaches depth orig_model 0 m d.

(** The nodes that get a hook, with the depth their closure captures: the
    effect of [apply_hooks] without the handle bookkeeping. *)
Fixpoint walk (module orig_model : nn_Module) (depth curr_depth : Z)
  : list (nn_Module * Z) :=
  match module with
  | mkModule _ _ _ subs =>
      (if instrumented module orig_model then [(module, curr_depth)] else [])
      ++
      if (curr_depth <=? depth)%Z then
        (fix each (subs : list nn_Module) (memo : gset positive) :=
           match subs with
           | [] => []
           | child :: subs' =>
               if decide (m_id child ∈ memo) then each subs' memo
               else
                 walk child orig_model depth (curr_depth + 1)
                 ++ each subs' ({[ m_id child ]} ∪ memo)
           end) subs ∅
      else []
  end.

Definition entry (sink : nat) (batch_dim : Z) (md : nn_Module * Z)
  : hook_entry :=
  {| he_module := md.1; he_depth := md.2;
     he_batch_dim := batch_dim; he_sink := sink |}.

(** The hooks [apply_hooks] leaves on a model that had none. *)
Definition installed (model : nn_Module) (depth : Z) (sink : nat)
    (batch_dim : Z) : list hook_entry :=
  map snd
    (w_hooks (snd (apply_hooks model model depth sink batch_dim 0
                     ([], empty_world)))).

(** One firing of an observer: the captured depth, the module, its output. *)
Definition firing : Type := Z * nn_Module * pyval.

Definition run_hooks (batch_dim : Z) (fs : list firing) (ctx : pass_ctx)
  : pass_ctx :=
  foldl (fun ctx f => hook f.1.1 batch_dim f.1.2 f.2 ctx) ctx fs.

(** The firings of a forward pass: at each completed module call, the hooks
    on that object, in registration order. *)
Definition firings (ws : list (nn_Module * Z))
    (calls : list (positive * pyval)) : list firing :=
  flat_map
    (fun call =>
       map (fun md : nn_Module * Z => (md.2, md.1, call.2))
           (List.filter (fun md => bool_decide (m_id md.1 = call.1)) ws))
    calls.

(** How often a parameter tensor enters the totals. *)
Definition times_counted (i : positive) (summary_list : list LayerInfo)
  : nat :=
  length (List.filter (fun p => bool_decide (p_id p = i))
                      (attributed summary_list)).

(** Handles and captured objects are older than the counters. *)
Definition wf_world (w : world) : Prop :=
  Forall (fun he => he.1 < w_next_handle w /\ he_sink he.2 < w_next_obj w)
         (w_hooks w).

(** [apply_hooks] registers the entries of [walk], in order. *)
Definition register_all (es : list hook_entry) (st : list nat * world)
  : list nat * world :=
  foldl (fun st e =>
           let '(h, w) := register_forward_hook e (snd st) in
           (fst st ++ [h], w)) st es.

(** The loop of [named_modules] over the registered submodules. *)
Fixpoint named_modules_list (subs : list nn_Module) (memo : gset positive)
  : list nn_Module * gset positive :=
  match subs with
  | [] => ([], memo)
  | c :: subs' =>
      let '(l1, memo1) := named_modules c memo in
      let '(l2, memo2) := named_modules_list subs' memo1 in
      (l1 ++ l2, memo2)
  end.

(** Only the heap differs between two worlds. *)
Definition same_frame (w w' : world) : Prop :=
  w_hooks w' = w_hooks w /\ w_next_handle w' = w_next_handle w
  /\ w_next_obj w' = w_next_obj w /\ w_stdout w' = w_stdout w
  /\ w_calls w' = w_calls w.

Definition mine (sink : nat) (es : list hook_entry) : list hook_entry :=
  List.filter (fun he => bool_decide (he_sink he = sink)) es.

Definition fire (outputs : pyval) (ctx : pass_ctx) (he : hook_entry)
  : pass_ctx :=
  hook (he_depth he) (he_batch_dim he) (he_module he) outputs ctx.

(** The records of a pass of [summary] in which the module calls [calls]
    completed. *)
Definition pass_records (a : summary_args) (calls : list (positive * pyval))
  : list LayerInfo :=
  summary_list
    (run_hooks (a_batch_dim a)
       (firings (walk (a_model a) (a_model a) (a_depth a) 0) calls)
       empty_ctx).

(** The world after lines 67 to 70 of [summary]: fresh [summary_list] and
    [idx] objects, and the hooks of the walk registered under fresh
    handles. *)
Definition instrument (a : summary_args) (w : world) : world :=
  let es :=
    map (entry (w_next_obj w) (a_batch_dim a))
        (walk (a_model a) (a_model a) (a_depth a) 0) in
  {| w_hooks := w_hooks w ++ zip (seq (w_next_handle w) (length es)) es;
     w_next_handle := w_next_handle w + length es;
     w_heap := <[ w_next_obj w := empty_ctx ]> (w_heap w);
     w_next_obj := S (w_next_obj w);
     w_stdout := w_stdout w; w_calls := w_calls w |}.

(** What a pass prints: the diagnostic when it failed with an [Exception],
    the report when it succeeded and [verbose > 0]. *)
Definition printed (a : summary_args) (input_size : list size_spec)
    (calls : list (positive * pyval)) (raised : option exn) : list message :=
  match raised with
  | Some e =>
      if is_Exception (exn_cls e) then [MsgFailed (pass_records a calls)]
      else []
  | None =>
      if (0 <? a_verbose a)%Z
      then [MsgResults (ModelStatistics_init (pass_records a calls) input_size
                                             (formatting_of a))]
      else []
  end.

(** The records observed at depth [d], in observation order. *)
Definition at_depth (d : Z) (rs : list LayerInfo) : list LayerInfo :=
  List.filter (fun r => bool_decide (depth r = d)) rs.

(** What the observer makes of a record's counts: the element counts of
    the tensors the record owns, split by the gradient flag. *)
Definition counts_own_params (r : LayerInfo) : Prop :=
  num_params_trainable r
  = sum_nelement (List.filter p_requires_grad (owned r))
  /\ num_params_frozen r
     = sum_nelement (List.filter (fun p => negb (p_requires_grad p)) (owned r)).

(** ** Small models used as concrete inputs *)

Definition weight (i : positive) : param :=
  {| p_id := i; p_nelement := 50; p_requires_grad := true |}.

Definition bias (i : positive) : param :=
  {| p_id := i; p_nelement := 5; p_requires_grad := true |}.

Definition Linear (i : positive) (ps : list param) : nn_Module :=
  mkModule i ["Linear"; "Module"]%string ps [].

(** [nn.Sequential(nn.Linear(10, 5))] *)
Definition sequential_model : nn_Module :=
  mkModule 1 ["Sequential"; "Module"]%string [] [Linear 2 [weight 10; bias 11]].

(** A linear layer below two nested containers below the root. *)
Definition deep_linear : nn_Module := Linear 4 [weight 10; bias 11].

Definition inner_container : nn_Module :=
  mkModule 3 ["Sequential"; "Module"]%string [] [deep_linear].

Definition outer_container : nn_Module :=
  mkModule 2 ["Sequential"; "Module"]%string [] [inner_container].

Definition nested_model : nn_Module :=
  mkModule 1 ["Net"; "Module"]%string [] [outer_container].

(** An encoder and a decoder with tied weights: the decoder's weight is the
    encoder's tensor, its bias is its own. *)
Definition tied_model : nn_Module :=
  mkModule 1 ["TiedNet"; "Module"]%string []
    [Linear 2 [weight 10]; Linear 3 [weight 10; bias 11]].

Definition out_tensor : pyval :=
  PTensor {| t_shape := [2; 5]%Z; t_dtype := torch_float; t_device := Cpu;
             t_data := Given 1 |}.

(** A forward pass in which the modules 2, 3 and 1 complete, in this
    order. *)
Definition returning_env : torch_env :=
  {| cuda_is_available := false;
     forward := fun _ _ _ _ =>
       ([(2%positive, out_tensor); (3%positive, out_tensor);
         (1%positive, out_tensor)], None) |}.

(** A forward pass that raises once module 2 has completed. *)
Definition raising_env (c : exn_class) : torch_env :=
  {| cuda_is_available := false;
     forward := fun _ _ _ _ =>
       ([(2%positive, out_tensor)],
        Some {| exn_cls := c; exn_msg := "stop" |}) |}.

Definition args_for (model : nn_Module) (input_data : input_data_t)
    (depth : Z) : summary_args :=
  {| a_model := model; a_input_data := input_data; a_args := [];
     a_batch_dim := 0; a_branching := true;
     a_col_names := ["output_size"; "num_params"]%string; a_col_width := 25;
     a_depth := depth; a_device := None; a_dtypes := None; a_verbose := 1;
     a_kwargs := ∅ |}.

Definition shape_1_10 : input_data_t := InSpec (SList [SInt 1; SInt 10]).

(** A call that passes [flag=7] and a tensor [mask] on to [forward]. *)
Definition mask_tensor : tensor :=
  {| t_shape := [1; 10]%Z; t_dtype := torch_float; t_device := Cpu;
     t_data := Given 2 |}.

Definition flag_args : summary_args :=
  {| a_model := sequential_model; a_input_data := shape_1_10; a_args := [];
     a_batch_dim := 0; a_branching := true;
     a_col_names := ["output_size"; "num_params"]%string; a_col_width := 25;
     a_depth := 3; a_device := Some Cuda; a_dtypes := Some [torch_float];
     a_verbose := 0;
     a_kwargs := {[ "flag"%string := PInt 7;
                    "mask"%string := PTensor mask_tensor ]} |}.

(** A call that passes [3] and a tensor on to [forward], positionally. *)
Definition extra_args : summary_args :=
  {| a_model := sequential_model; a_input_data := shape_1_10;
     a_args := [PInt 3; PTensor mask_tensor];
     a_batch_dim := 0; a_branching := true;
     a_col_names := ["output_size"; "num_params"]%string; a_col_width := 25;
     a_depth := 3; a_device := Some Cuda; a_dtypes := Some [torch_float];
     a_verbose := 0; a_kwargs := ∅ |}.

(** The identities of a module and of the modules below it. *)
Definition all_ids (m : nn_Module) : list positive :=
  m_id m :: map m_id (descendants m).

(** The number of hooks the walk of [summary] puts on the module [i]. *)
Definition hooks_count (a : summary_args) (i : positive) : nat :=
  length (List.filter (fun md : nn_Module * Z => bool_decide (m_id md.1 = i))
                      (walk (a_model a) (a_model a) (a_depth a) 0)).

(** An attention block as the model: its output projection is a child. *)
Definition attention_model : nn_Module :=
  mkModule 1 ["MultiheadAttention"; "Module"]%string [weight 10]
    [Linear 2 [weight 20; bias 21]].

(** * Proofs *)

Lemma nn_Module_ind' (P : nn_Module -> Prop) :
  (forall i mro ps subs, Forall P subs -> P (mkModule i mro ps subs)) ->
  forall m, P m.
Proof.
  intros step. fix IH 1. intros [i mro ps subs]. apply step.
  revert subs. fix IHsubs 1.
  intros [|c subs]; constructor; [apply IH | apply IHsubs].
Qed.

(** ** [unique_by] *)

Section UniqueBy.
Context {A : Type} (key : A -> positive).

Lemma unique_by_elem x l memo :
  x ∈ unique_by key l memo -> x ∈ l /\ key x ∉ memo.
Proof.
  revert memo. induction l as [|y l IH]; intros memo; simpl.
  - intros H. inversion H.
  - destruct (decide (key y ∈ memo)) as [Hin|Hout].
    + intros H. apply IH in H as [? ?]. split; [by right | done].
    + intros H. apply elem_of_cons in H as [->|H].
      * split; [by left | done].
      * apply IH in H as [? Hn]. split; [by right |].
        by apply not_elem_of_union in Hn as [_ Hn].
Qed.

Lemma unique_by_NoDup l memo : NoDup (map key (unique_by key l memo)).
Proof.
  revert memo. induction l as [|y l IH]; intros memo; simpl.
  - constructor.
  - destruct (decide (key y ∈ memo)); [apply IH |].
    simpl. constructor; [| apply IH].
    intros Hin. apply list_elem_of_fmap in Hin as (x & Hk & Hx).
    apply unique_by_elem in Hx as [_ Hx]. set_solver.
Qed.

Lemma unique_by_head x l memo :
  key x ∉ memo -> unique_by key (x :: l) memo
                  = x :: unique_by key l ({[ key x ]} ∪ memo).
Proof. intros H. simpl. by destruct (decide (key x ∈ memo)). Qed.

Lemma unique_by_nil l : unique_by key l ∅ = [] -> l = [].
Proof.
  destruct l as [|x l]; [done |]. rewrite unique_by_head; [done | set_solver].
Qed.
End UniqueBy.

(** ** The walker *)

Lemma children_registered m c : c ∈ children m -> c ∈ m_modules m.
Proof. intros H. by apply unique_by_elem in H as [? _]. Qed.

Lemma descendants_unfold m :
  descendants m = flat_map (fun c => c :: descendants c) (m_modules m).
Proof.
  destruct m as [i mro ps subs]. simpl.
  induction subs as [|c subs IH]; simpl; [done |]. by rewrite IH.
Qed.

Lemma descendants_child m c : c ∈ m_modules m -> c ∈ descendants m.
Proof.
  intros H. rewrite descendants_unfold. apply list_elem_of_In, in_flat_map.
  exists c. split; [by apply list_elem_of_In | by left].
Qed.

Lemma descendants_trans m c x :
  c ∈ m_modules m -> x ∈ descendants c -> x ∈ descendants m.
Proof.
  intros H Hx. rewrite descendants_unfold. apply list_elem_of_In, in_flat_map.
  exists c. split; [by apply list_elem_of_In |]. right.
  by apply list_elem_of_In.
Qed.

Lemma path_descendant m n m' :
  path m n m' -> n = 0 /\ m' = m \/ 0 < n /\ m' ∈ descendants m.
Proof.
  induction 1 as [m | m c n m' Hc Hp IH]; [by left |]. right.
  split; [lia |]. apply children_registered in Hc.
  destruct IH as [[_ ->] | [_ IH]]; [by apply descendants_child |].
  by eapply descendants_trans.
Qed.

Lemma walk_unfold module orig_model depth curr_depth :
  walk module orig_model depth curr_depth =
  (if instrumented module orig_model then [(module, curr_depth)] else [])
  ++ if (curr_depth <=? depth)%Z
     then flat_map (fun child => walk child orig_model depth (curr_depth + 1))
                   (children module)
     else [].
Proof.
  destruct module as [i mro ps subs]. unfold children. simpl m_modules.
  simpl walk. f_equal. destruct (curr_depth <=? depth)%Z; [| done].
  generalize (∅ : gset positive).
  induction subs as [|c subs IH]; intros memo; simpl; [done |].
  destruct (decide (m_id c ∈ memo)); simpl; by rewrite IH.
Qed.


Lemma register_all_app es1 es2 st :
  register_all (es1 ++ es2) st = register_all es2 (register_all es1 st).
Proof. apply foldl_app. Qed.

Lemma each_child_foldl {S} (f : nn_Module -> S -> S) subs memo st :
  (fix each (subs : list nn_Module) (memo : gset positive) (st : S) :=
     match subs with
     | [] => st
     | child :: subs' =>
         if decide (m_id child ∈ memo) then each subs' memo st
         else each subs' ({[ m_id child ]} ∪ memo) (f child st)
     end) subs memo st
  = foldl (fun st child => f child st) st (unique_by m_id subs memo).
Proof.
  revert memo st. induction subs as [|c subs IH]; intros memo st; [done |].
  simpl. destruct (decide (m_id c ∈ memo)); simpl; by rewrite IH.
Qed.

Lemma apply_hooks_unfold module orig_model depth sink batch_dim curr_depth st :
  apply_hooks module orig_model depth sink batch_dim curr_depth st =
  let st :=
    if instrumented module orig_model
    then register_all [entry sink batch_dim (module, curr_depth)] st
    else st in
  if (curr_depth <=? depth)%Z
  then foldl (fun st child =>
                apply_hooks child orig_model depth sink batch_dim
                            (curr_depth + 1) st)
             st (children module)
  else st.
Proof.
  destruct module as [i mro ps subs]. unfold children. simpl m_modules.
  simpl apply_hooks. cbv zeta.
  destruct (instrumented _ _); destruct (curr_depth <=? depth)%Z; try done.
  - exact (each_child_foldl
             (fun child st =>
                apply_hooks child orig_model depth sink batch_dim
                            (curr_depth + 1) st) subs ∅ _).
  - exact (each_child_foldl
             (fun child st =>
                apply_hooks child orig_model depth sink batch_dim
                            (curr_depth + 1) st) subs ∅ _).
Qed.

Lemma apply_hooks_walk module orig_model depth sink batch_dim :
  forall curr_depth st,
  apply_hooks module orig_model depth sink batch_dim curr_depth st =
  register_all
    (map (entry sink batch_dim) (walk module orig_model depth curr_depth)) st.
Proof.
  induction module as [i mro ps subs IH] using nn_Module_ind'.
  intros curr_depth st. rewrite apply_hooks_unfold, walk_unfold. cbv zeta.
  rewrite map_app, register_all_app.
  assert (Forall (fun c => forall d s,
            apply_hooks c orig_model depth sink batch_dim d s =
            register_all (map (entry sink batch_dim)
                              (walk c orig_model depth d)) s)
                 (children (mkModule i mro ps subs))) as IH'.
  { apply Forall_forall. intros c Hc. apply children_registered in Hc.
    rewrite Forall_forall in IH. by apply IH. }
  clear IH.
  set (st1 := if instrumented _ _ then _ else st).
  assert (register_all
            (map (entry sink batch_dim)
                 (if instrumented (mkModule i mro ps subs) orig_model
                  then [(mkModule i mro ps subs, curr_depth)] else [])) st
          = st1) as ->.
  { subst st1. by destruct (instrumented _ _). }
  destruct (curr_depth <=? depth)%Z; [| done].
  generalize st1. clear st1.
  induction IH' as [|c cs Hc _ IHcs]; intros s; simpl; [done |].
  by rewrite map_app, register_all_app, Hc, IHcs.
Qed.

Lemma register_all_spec es : forall hooks w,
  register_all es (hooks, w) =
  (hooks ++ seq (w_next_handle w) (length es),
   {| w_hooks := w_hooks w ++ zip (seq (w_next_handle w) (length es)) es;
      w_next_handle := w_next_handle w + length es;
      w_heap := w_heap w; w_next_obj := w_next_obj w;
      w_stdout := w_stdout w; w_calls := w_calls w |}).
Proof.
  induction es as [|e es IH]; intros hooks w.
  - simpl. rewrite !app_nil_r, Nat.add_0_r. by destruct w.
  - change (register_all (e :: es) (hooks, w))
      with (register_all es
              (hooks ++ [w_next_handle w], snd (register_forward_hook e w))).
    rewrite IH. simpl. rewrite <- !app_assoc. simpl.
    by rewrite Nat.add_succ_r.
Qed.

Lemma walk_reaches orig_model depth module :
  forall d m' d',
  (m', d') ∈ walk module orig_model depth d <->
  reaches depth module d m' d' /\ instrumented m' orig_model = true.
Proof.
  induction module as [i mro ps subs IH] using nn_Module_ind'.
  intros d m' d'. rewrite walk_unfold, elem_of_app.
  set (m := mkModule i mro ps subs) in *.
  assert (forall c, c ∈ children m -> forall d m' d',
            (m', d') ∈ walk c orig_model depth d <->
            reaches depth c d m' d' /\ instrumented m' orig_model = true)
    as IHc.
  { intros c Hc. apply children_registered in Hc.
    rewrite Forall_forall in IH. by apply IH. }
  clear IH. split.
  - intros [Hhere | Hbelow].
    + destruct (instrumented m orig_model) eqn:Hi; [| by inversion Hhere].
      apply list_elem_of_singleton in Hhere. injection Hhere as -> ->.
      split; [constructor | done].
    + destruct (d <=? depth)%Z eqn:Hd; [| by inversion Hbelow].
      apply list_elem_of_In, in_flat_map in Hbelow as (c & Hc & Hin).
      apply list_elem_of_In in Hc, Hin. apply (IHc c Hc) in Hin as [Hr Hi].
      split; [| done]. eapply reaches_child; eauto. lia.
  - intros [Hr Hi]. inversion Hr as [| ? ? c ? ? Hd Hc Hr']; subst.
    + left. rewrite Hi. by apply list_elem_of_singleton.
    + right. apply Z.leb_le in Hd. rewrite Hd.
      apply list_elem_of_In, in_flat_map. exists c.
      split; [by apply list_elem_of_In |]. apply list_elem_of_In.
      by apply (IHc c Hc).
Qed.

Lemma reaches_path depth m d m' d' :
  reaches depth m d m' d' <->
  exists n : nat, path m n m' /\ d' = (d + Z.of_nat n)%Z
                  /\ (n = 0 \/ (d + Z.of_nat n <= depth + 1)%Z).
Proof.
  split.
  - induction 1 as [m d | m d c m' d' Hd Hc _ (n & Hp & -> & Hn)].
    + exists 0. split; [constructor |]. split; [lia | by left].
    + exists (S n). split; [by econstructor |]. split; [lia |]. right. lia.
  - intros (n & Hp & -> & Hn). revert d Hn.
    induction Hp as [m | m c n m' Hc _ IH]; intros d Hn.
    + rewrite Z.add_0_r. constructor.
    + eapply reaches_child; [lia | done |].
      replace (d + Z.of_nat (S n))%Z with (d + 1 + Z.of_nat n)%Z by lia.
      apply IH. right. lia.
Qed.

(** ** The instrumentation test *)


Lemma named_modules_unfold m memo :
  named_modules m memo =
  if decide (m_id m ∈ memo) then ([], memo)
  else
    let '(below, memo') :=
      named_modules_list (m_modules m) ({[ m_id m ]} ∪ memo) in
    (m :: below, memo').
Proof.
  destruct m as [i mro ps subs]. simpl named_modules. simpl m_id.
  simpl m_modules. destruct (decide (i ∈ memo)); [done |].
  generalize ({[ i ]} ∪ memo).
  assert (forall memo,
    (fix each (subs : list nn_Module) (memo : gset positive) :=
       match subs with
       | [] => ([], memo)
       | c :: subs' =>
           let '(l1, memo1) := named_modules c memo in
           let '(l2, memo2) := each subs' memo1 in (l1 ++ l2, memo2)
       end) subs memo = named_modules_list subs memo) as Heach.
  { induction subs as [|c subs IH]; intros memo'; simpl; [done |].
    destruct (named_modules c memo') as [l1 memo1]. by rewrite IH. }
  intros memo'. by rewrite Heach.
Qed.

Lemma instrumented_not_root m orig_model :
  m_id m <> m_id orig_model -> instrumented m orig_model = true.
Proof.
  intros Hne. unfold instrumented, is_.
  by rewrite bool_decide_eq_false_2.
Qed.

Lemma submodules_leaf m orig_model :
  m_id m = m_id orig_model -> not_below_itself m ->
  is_empty (List.filter (fun x => negb (is_ x orig_model)) (modules m))
  = is_empty (descendants m).
Proof.
  intros Hid Hwf. unfold modules. rewrite named_modules_unfold.
  destruct (decide (m_id m ∈ ∅)) as [Hin | _];
    [by apply not_elem_of_empty in Hin |].
  rewrite descendants_unfold. unfold not_below_itself in Hwf.
  rewrite descendants_unfold in Hwf.
  destruct (m_modules m) as [|c subs]; simpl.
  - unfold is_. by rewrite bool_decide_eq_true_2.
  - apply Forall_cons in Hwf as [Hc _]. rewrite named_modules_unfold.
    destruct (decide (m_id c ∈ {[ m_id m ]} ∪ ∅)) as [Hin | _].
    { apply elem_of_union in Hin as [Hin | Hin];
        [by apply elem_of_singleton in Hin | by apply not_elem_of_empty in Hin]. }
    destruct (named_modules_list (m_modules c) _) as [l1 memo1].
    destruct (named_modules_list subs memo1) as [l2 memo2]. simpl.
    unfold is_ at 1. rewrite bool_decide_eq_true_2 by done. simpl.
    unfold is_ at 1. rewrite bool_decide_eq_false_2 by congruence. done.
Qed.

Lemma instrumented_iff m orig_model :
  (m_id m = m_id orig_model -> not_below_itself m) ->
  instrumented m orig_model = true <->
  m_id m <> m_id orig_model \/ isinstance m LAYER_MODULES = true
  \/ descendants m = [].
Proof.
  intros Hwf. destruct (decide (m_id m = m_id orig_model)) as [Hid | Hne].
  - unfold instrumented. rewrite (submodules_leaf _ _ Hid (Hwf Hid)).
    unfold is_ at 1. rewrite bool_decide_eq_true_2 by done. simpl.
    rewrite orb_true_iff. split.
    + intros [H | H]; [by right; left |]. right. right.
      by destruct (descendants m).
    + intros [H | [H | H]]; [done | by left | right; by rewrite H].
  - split; [by left | intros _; by apply instrumented_not_root].
Qed.

(** ** Hooks firing into the heap *)


Lemma same_frame_refl w : same_frame w w.
Proof. by repeat split. Qed.

Lemma same_frame_trans w1 w2 w3 :
  same_frame w1 w2 -> same_frame w2 w3 -> same_frame w1 w3.
Proof.
  intros (? & ? & ? & ? & ?) (? & ? & ? & ? & ?).
  repeat split; congruence.
Qed.

Lemma run_hooks_app batch_dim fs1 fs2 ctx :
  run_hooks batch_dim (fs1 ++ fs2) ctx
  = run_hooks batch_dim fs2 (run_hooks batch_dim fs1 ctx).
Proof. apply foldl_app. Qed.

Lemma firings_cons ws call calls :
  firings ws (call :: calls) = firings ws [call] ++ firings ws calls.
Proof. unfold firings. simpl. by rewrite app_nil_r. Qed.

Lemma foldl_run_hook sink outputs es : forall w ctx,
  w_heap w !! sink = Some ctx ->
  same_frame w (foldl (run_hook outputs) w es)
  /\ w_heap (foldl (run_hook outputs) w es) !! sink
     = Some (foldl (fire outputs) ctx (mine sink es)).
Proof.
  induction es as [|he es IH]; intros w ctx Hctx; simpl.
  - split; [apply same_frame_refl | done].
  - destruct (IH (run_hook outputs w he)
                 (if bool_decide (he_sink he = sink)
                  then fire outputs ctx he else ctx)) as [Hf Hh].
    { unfold run_hook, set_heap. simpl. case_bool_decide as Hs.
      - subst sink. rewrite lookup_alter_eq, Hctx. done.
      - by rewrite lookup_alter_ne. }
    split.
    + eapply same_frame_trans; [| exact Hf]. by repeat split.
    + rewrite Hh. unfold mine. simpl. by case_bool_decide.
Qed.

Lemma mine_entries sink batch_dim ws :
  mine sink (map (entry sink batch_dim) ws) = map (entry sink batch_dim) ws.
Proof.
  unfold mine. induction ws as [|md ws IH]; simpl; [done |].
  rewrite bool_decide_eq_true_2 by done. by rewrite IH.
Qed.

Lemma mine_others sink es :
  Forall (fun he => he_sink he <> sink) es -> mine sink es = [].
Proof.
  unfold mine. induction 1 as [|he es Hne _ IH]; simpl; [done |].
  by rewrite bool_decide_eq_false_2.
Qed.

Lemma filter_entries sink batch_dim (i : positive) ws :
  List.filter (fun he => bool_decide (m_id (he_module he) = i))
              (map (entry sink batch_dim) ws)
  = map (entry sink batch_dim)
        (List.filter (fun md : nn_Module * Z => bool_decide (m_id md.1 = i))
                     ws).
Proof.
  induction ws as [|md ws IH]; simpl; [done |].
  case_bool_decide; simpl; by rewrite IH.
Qed.

Lemma fire_entries sink batch_dim outputs ws ctx :
  foldl (fire outputs) ctx (map (entry sink batch_dim) ws)
  = run_hooks batch_dim
      (map (fun md : nn_Module * Z => (md.2, md.1, outputs)) ws) ctx.
Proof.
  revert ctx. induction ws as [|md ws IH]; intros ctx; simpl; [done |].
  by rewrite IH.
Qed.

Lemma filter_sub {A} (P : A -> Prop) f (l : list A) :
  Forall P l -> Forall P (List.filter f l).
Proof.
  rewrite !Forall_forall. intros H x Hx. apply H.
  apply list_elem_of_In, filter_In in Hx as [Hx _]. by apply list_elem_of_In.
Qed.

Lemma mine_filter sink f es :
  mine sink (List.filter f es) = List.filter f (mine sink es).
Proof.
  unfold mine. induction es as [|he es IH]; simpl; [done |].
  destruct (f he) eqn:Hf; simpl; case_bool_decide; simpl;
    rewrite ?Hf, IH; done.
Qed.

Lemma map_snd_zip {A B} (l1 : list A) (l2 : list B) :
  length l1 = length l2 -> map snd (zip l1 l2) = l2.
Proof.
  revert l2. induction l1 as [|a l1 IH]; intros [|b l2] Hlen; simpl in *;
    try done. f_equal. apply IH. lia.
Qed.

Lemma map_fst_zip {A B} (l1 : list A) (l2 : list B) :
  length l1 = length l2 -> map fst (zip l1 l2) = l1.
Proof.
  revert l2. induction l1 as [|a l1 IH]; intros [|b l2] Hlen; simpl in *;
    try done. f_equal. apply IH. lia.
Qed.

Section Pass.
Variables (sink : nat) (batch_dim : Z) (ws : list (nn_Module * Z)).
Variables (old : list (nat * hook_entry)) (ids : list nat).
Hypothesis Hlen : length ids = length ws.
Hypothesis Hold : Forall (fun he => he_sink he.2 <> sink) old.

Let hooks := old ++ zip ids (map (entry sink batch_dim) ws).

Lemma mine_hooks_on i :
  mine sink (hooks_on i hooks)
  = map (entry sink batch_dim)
        (List.filter (fun md : nn_Module * Z => bool_decide (m_id md.1 = i))
                     ws).
Proof using Hlen Hold.
  unfold hooks_on, hooks. rewrite map_app, List.filter_app.
  unfold mine. rewrite List.filter_app.
  change (mine sink (List.filter
            (fun he => bool_decide (m_id (he_module he) = i)) (map snd old))
          ++ mine sink (List.filter
            (fun he => bool_decide (m_id (he_module he) = i))
            (map snd (zip ids (map (entry sink batch_dim) ws))))
          = map (entry sink batch_dim)
              (List.filter
                 (fun md : nn_Module * Z => bool_decide (m_id md.1 = i)) ws)).
  rewrite !mine_filter, (mine_others sink (map snd old)).
  - simpl. rewrite map_snd_zip by (rewrite length_map; lia).
    by rewrite mine_entries, filter_entries.
  - apply Forall_forall. intros he Hhe.
    apply list_elem_of_fmap in Hhe as (x & -> & Hx).
    rewrite Forall_forall in Hold. by apply Hold.
Qed.

Lemma call_module_heap w ctx call :
  w_hooks w = hooks -> w_heap w !! sink = Some ctx ->
  same_frame w (call_module w call)
  /\ w_heap (call_module w call) !! sink
     = Some (run_hooks batch_dim (firings ws [call]) ctx).
Proof using Hlen Hold.
  intros Hw Hctx. unfold call_module.
  destruct (foldl_run_hook sink call.2 (hooks_on call.1 (w_hooks w)) w ctx Hctx)
    as [Hf Hh].
  split; [done |]. rewrite Hh, Hw, mine_hooks_on, fire_entries.
  unfold firings. simpl. by rewrite app_nil_r.
Qed.

Lemma calls_heap calls : forall w ctx,
  w_hooks w = hooks -> w_heap w !! sink = Some ctx ->
  same_frame w (foldl call_module w calls)
  /\ w_heap (foldl call_module w calls) !! sink
     = Some (run_hooks batch_dim (firings ws calls) ctx).
Proof using Hlen Hold.
  induction calls as [|call calls IH]; intros w ctx Hw Hctx.
  - split; [apply same_frame_refl | done].
  - change (foldl call_module w (call :: calls))
      with (foldl call_module (call_module w call) calls).
    destruct (call_module_heap w ctx call Hw Hctx) as [Hf Hh].
    assert (w_hooks (call_module w call) = hooks) as Hw'.
    { destruct Hf as (-> & _). done. }
    destruct (IH (call_module w call) _ Hw' Hh) as [Hf' Hh'].
    split; [by eapply same_frame_trans |].
    by rewrite Hh', (firings_cons ws call calls), run_hooks_app.
Qed.
End Pass.

(** ** Removing the handles *)

Lemma filter_filter_handles (h : nat) hs (l : list (nat * hook_entry)) :
  List.filter (fun he => negb (bool_decide (he.1 ∈ hs)))
    (List.filter (fun he => negb (bool_decide (he.1 = h))) l)
  = List.filter (fun he => negb (bool_decide (he.1 ∈ h :: hs))) l.
Proof.
  induction l as [|he l IH]; simpl; [done |].
  destruct (decide (he.1 = h)) as [Heq | Hne].
  - rewrite (bool_decide_eq_true_2 (he.1 = h)) by done. simpl.
    rewrite (bool_decide_eq_true_2 (he.1 ∈ h :: hs)); [done |].
    rewrite Heq. by left.
  - rewrite (bool_decide_eq_false_2 (he.1 = h)) by done. simpl.
    rewrite IH. destruct (decide (he.1 ∈ hs)) as [Hin | Hout].
    + rewrite (bool_decide_eq_true_2 (he.1 ∈ hs)) by done.
      rewrite (bool_decide_eq_true_2 (he.1 ∈ h :: hs)); [done | by right].
    + rewrite (bool_decide_eq_false_2 (he.1 ∈ hs)) by done.
      rewrite (bool_decide_eq_false_2 (he.1 ∈ h :: hs)); [done |].
      intros Hin. by apply elem_of_cons in Hin as [? | ?].
Qed.

Lemma remove_all_spec hs : forall w,
  remove_all hs w
  = set_hooks (List.filter (fun he => negb (bool_decide (he.1 ∈ hs)))) w.
Proof.
  induction hs as [|h hs IH]; intros w.
  - unfold remove_all, set_hooks. simpl. destruct w. simpl. f_equal.
    induction w_hooks0 as [|he l IHl]; simpl; [done | by f_equal].
  - change (remove_all (h :: hs) w) with (remove_all hs (remove h w)).
    rewrite IH. unfold remove, set_hooks. simpl.
    by rewrite filter_filter_handles.
Qed.

Lemma filter_restore (old : list (nat * hook_entry)) n es :
  Forall (fun he => he.1 < n) old ->
  List.filter (fun he => negb (bool_decide (he.1 ∈ seq n (length es))))
              (old ++ zip (seq n (length es)) es) = old.
Proof.
  intros Hold. rewrite List.filter_app.
  assert (List.filter
            (fun he : nat * hook_entry =>
               negb (bool_decide (he.1 ∈ seq n (length es)))) old = old)
    as ->.
  { induction Hold as [|he old Hlt _ IH]; simpl; [done |].
    rewrite bool_decide_eq_false_2; [simpl; by rewrite IH |].
    intros Hin. apply list_elem_of_In, in_seq in Hin. lia. }
  assert (forall (ids : list nat) (l : list (nat * hook_entry)),
            Forall (fun he => he.1 ∈ ids) l ->
            List.filter (fun he => negb (bool_decide (he.1 ∈ ids))) l = [])
    as Hnone.
  { intros ids l. induction 1 as [|he l Hin _ IH]; simpl; [done |].
    by rewrite bool_decide_eq_true_2. }
  rewrite Hnone; [by rewrite app_nil_r |].
  apply Forall_forall. intros he Hhe.
  apply list_elem_of_In in Hhe.
  apply list_elem_of_In. rewrite <- (map_fst_zip (seq n (length es)) es)
    by apply length_seq.
  apply in_map_iff. by exists he.
Qed.

(** ** [summary], step by step *)

Lemma summary_bad_verbose env a w :
  a_verbose a ∉ [0; 1; 2]%Z -> summary env a w = (raise AssertionError, w).
Proof. intros Hv. unfold summary. by rewrite bool_decide_eq_false_2. Qed.

Lemma summary_unfold env a w :
  a_verbose a ∈ [0; 1; 2]%Z ->
  summary env a w =
  let sink := w_next_obj w in
  let hooks :=
    seq (w_next_handle w)
        (length (walk (a_model a) (a_model a) (a_depth a) 0)) in
  let device := device_of env a in
  match prepare_input a device with
  | Raise e => (Raise e, instrument a w)
  | Ok (input_size, x) =>
      let args := map (forward_arg device) (a_args a) in
      let kwargs := forward_kwargs device (a_kwargs a) in
      let w := log_call (map PTensor x ++ args) kwargs (instrument a w) in
      let '(calls, raised) :=
        forward env (a_model a) device (map PTensor x ++ args) kwargs in
      let w := foldl call_module w calls in
      match raised with
      | Some e =>
          (Raise e,
           remove_all hooks
             (if is_Exception (exn_cls e)
              then print (MsgFailed (list_of sink w)) w else w))
      | None =>
          let w := remove_all hooks w in
          let results :=
            ModelStatistics_init (list_of sink w) input_size
                                 (formatting_of a) in
          (Ok results,
           if (0 <? a_verbose a)%Z then print (MsgResults results) w else w)
      end
  end.
Proof.
  intros Hv. unfold summary.
  rewrite bool_decide_eq_true_2 by done. simpl negb. cbv iota.
  unfold new_ctx, instrument. rewrite apply_hooks_walk, register_all_spec.
  cbv beta iota zeta. rewrite !length_map. simpl app. reflexivity.
Qed.

Lemma instrument_wf a w : wf_world w -> wf_world (instrument a w).
Proof.
  unfold wf_world, instrument. simpl. intros Hwf.
  apply Forall_app. split.
  - eapply Forall_impl; [exact Hwf |]. simpl. intros he [? ?]. lia.
  - apply Forall_forall. intros [h e] Hin. simpl.
    assert (In h (seq (w_next_handle w)
                    (length (map (entry (w_next_obj w) (a_batch_dim a))
                       (walk (a_model a) (a_model a) (a_depth a) 0))))
            /\ In e (map (entry (w_next_obj w) (a_batch_dim a))
                       (walk (a_model a) (a_model a) (a_depth a) 0)))
      as [Hh He].
    { apply list_elem_of_In in Hin. split.
      - rewrite <- (map_fst_zip (seq _ _) (map _ _)) by apply length_seq.
        apply in_map_iff. by exists (h, e).
      - rewrite <- (map_snd_zip (seq (w_next_handle w) (length (map
                       (entry (w_next_obj w) (a_batch_dim a))
                       (walk (a_model a) (a_model a) (a_depth a) 0))))
                       (map _ _)) by apply length_seq.
        apply in_map_iff. by exists (h, e). }
    apply in_seq in Hh. apply in_map_iff in He as (md & <- & _).
    simpl. lia.
Qed.

Lemma list_of_frame sink w w' :
  w_heap w' = w_heap w -> list_of sink w' = list_of sink w.
Proof. unfold list_of. by intros ->. Qed.

(** A pass that is entered: the input was accepted and [forward] ran. *)
Lemma summary_pass env a w input_size x calls raised :
  wf_world w -> a_verbose a ∈ [0; 1; 2]%Z ->
  prepare_input a (device_of env a) = Ok (input_size, x) ->
  forward env (a_model a) (device_of env a)
          (map PTensor x ++ map (forward_arg (device_of env a)) (a_args a))
          (forward_kwargs (device_of env a) (a_kwargs a)) = (calls, raised) ->
  fst (summary env a w)
  = match raised with
    | Some e => Raise e
    | None => Ok (ModelStatistics_init (pass_records a calls) input_size
                                       (formatting_of a))
    end
  /\ w_hooks (snd (summary env a w)) = w_hooks w
  /\ w_next_handle (snd (summary env a w))
     = w_next_handle w + length (walk (a_model a) (a_model a) (a_depth a) 0)
  /\ w_next_obj (snd (summary env a w)) = S (w_next_obj w)
  /\ w_stdout (snd (summary env a w))
     = w_stdout w ++ printed a input_size calls raised
  /\ w_calls (snd (summary env a w))
     = w_calls w
       ++ [(map PTensor x ++ map (forward_arg (device_of env a)) (a_args a),
            forward_kwargs (device_of env a) (a_kwargs a))].
Proof.
  intros Hwf Hv Hin Hfw. rewrite summary_unfold by done. cbv zeta.
  rewrite Hin, Hfw.
  set (ws := walk (a_model a) (a_model a) (a_depth a) 0).
  set (w2 := log_call _ _ (instrument a w)).
  destruct (calls_heap (w_next_obj w) (a_batch_dim a) ws (w_hooks w)
              (seq (w_next_handle w) (length ws))) 
    with (calls := calls) (w := w2) (ctx := empty_ctx)
    as [(Hhooks & Hnh & Hno & Hout & Hcalls) Hheap].
  { apply length_seq. }
  { eapply Forall_impl; [exact Hwf |]. simpl. intros he [_ ?]. lia. }
  { subst w2 ws. unfold instrument. simpl. by rewrite length_map. }
  { subst w2. simpl. apply lookup_insert_eq. }
  set (w3 := foldl call_module w2 calls) in *.
  assert (list_of (w_next_obj w) w3 = pass_records a calls) as Hrec.
  { unfold list_of, pass_records. by rewrite Hheap. }
  assert (List.filter
            (fun he : nat * hook_entry =>
               negb (bool_decide (he.1 ∈ seq (w_next_handle w) (length ws))))
            (w_hooks w3) = w_hooks w) as Hrestore.
  { rewrite Hhooks. subst w2. unfold instrument. simpl. fold ws.
    pose proof (filter_restore (w_hooks w) (w_next_handle w)
                  (map (entry (w_next_obj w) (a_batch_dim a)) ws)) as Hr.
    rewrite length_map in *. apply Hr.
    eapply Forall_impl; [exact Hwf |]. simpl. by intros he [? _]. }
  assert (w_next_handle w2 = w_next_handle w + length ws) as Hnh2.
  { subst w2 ws. unfold instrument. simpl. by rewrite length_map. }
  unfold printed.
  destruct raised as [e |]; simpl fst; simpl snd.
  - rewrite remove_all_spec.
    destruct (is_Exception (exn_cls e)); simpl;
      rewrite ?Hrec, Hrestore, Hnh, Hno, Hout, Hcalls, Hnh2;
      subst w2; simpl; rewrite ?app_nil_r; done.
  - rewrite remove_all_spec.
    rewrite (list_of_frame _ w3) by done. rewrite Hrec.
    destruct (0 <? a_verbose a)%Z; simpl;
      rewrite Hrestore, Hnh, Hno, Hout, Hcalls, Hnh2;
      subst w2; simpl; rewrite ?app_nil_r; done.
Qed.

(** ** The observer: orders *)

Lemma hook_idx curr_depth batch_dim module outputs ctx :
  idx (hook curr_depth batch_dim module outputs ctx)
  = <[ curr_depth := (default 0 (idx ctx !! curr_depth) + 1)%Z ]> (idx ctx).
Proof. done. Qed.

Lemma hook_list curr_depth batch_dim module outputs ctx :
  exists info,
    summary_list (hook curr_depth batch_dim module outputs ctx)
    = summary_list ctx ++ [info]
    /\ order info = (default 0 (idx ctx !! curr_depth) + 1)%Z
    /\ depth info = curr_depth /\ identity info = m_id module
    /\ li_module info = module
    /\ num_params_trainable info
       = sum_nelement (List.filter p_requires_grad (parameters module))
    /\ num_params_frozen info
       = sum_nelement (List.filter (fun p => negb (p_requires_grad p))
                                   (parameters module))
    /\ is_recursive info
       = existsb (fun p => bool_decide (p_id p ∈ seen (summary_list ctx)))
                 (parameters module).
Proof.
  eexists. split; [reflexivity |]. simpl.
  rewrite lookup_total_insert_eq. by repeat split.
Qed.

Lemma run_hooks_snoc batch_dim fs (f : firing) ctx :
  run_hooks batch_dim (fs ++ [f]) ctx
  = hook f.1.1 batch_dim f.1.2 f.2 (run_hooks batch_dim fs ctx).
Proof. by rewrite run_hooks_app. Qed.

Lemma at_depth_app d rs1 rs2 :
  at_depth d (rs1 ++ rs2) = at_depth d rs1 ++ at_depth d rs2.
Proof. apply List.filter_app. Qed.

(** The counters agree with the records: the counter of depth [d] is the
    number of records at depth [d], whose orders are 1, 2, 3, ... *)
Lemma run_hooks_counters batch_dim fs :
  forall d,
  default 0%Z (idx (run_hooks batch_dim fs empty_ctx) !! d)
  = Z.of_nat
      (length (at_depth d (summary_list (run_hooks batch_dim fs empty_ctx))))
  /\ map order (at_depth d (summary_list (run_hooks batch_dim fs empty_ctx)))
     = map Z.of_nat
         (seq 1 (length (at_depth d
                   (summary_list (run_hooks batch_dim fs empty_ctx))))).
Proof.
  induction fs as [|f fs IH] using rev_ind; intros d.
  - simpl. by rewrite lookup_empty.
  - rewrite run_hooks_snoc.
    set (ctx := run_hooks batch_dim fs empty_ctx) in *.
    destruct (hook_list f.1.1 batch_dim f.1.2 f.2 ctx)
      as (info & Hl & Ho & Hd & _).
    rewrite Hl, hook_idx, at_depth_app, length_app, map_app.
    destruct (IH d) as [Hc Hs]. destruct (IH f.1.1) as [Hc' _].
    unfold at_depth at 2 4 6. simpl. rewrite Hd.
    destruct (decide (f.1.1 = d)) as [Heq | Hne].
    + rewrite bool_decide_eq_true_2 by done. rewrite Heq, lookup_insert_eq.
      simpl. rewrite seq_app, map_app, Hs. simpl.
      split; [lia |]. do 2 f_equal. rewrite Ho, Heq, Hc. lia.
    + rewrite bool_decide_eq_false_2 by done.
      rewrite lookup_insert_ne by done. simpl.
      rewrite Nat.add_0_r, !app_nil_r. done.
Qed.

Lemma run_hooks_call_order batch_dim fs :
  map (fun r => (depth r, identity r))
      (summary_list (run_hooks batch_dim fs empty_ctx))
  = map (fun f : firing => (f.1.1, m_id f.1.2)) fs.
Proof.
  induction fs as [|f fs IH] using rev_ind; [done |].
  rewrite run_hooks_snoc.
  destruct (hook_list f.1.1 batch_dim f.1.2 f.2
              (run_hooks batch_dim fs empty_ctx))
    as (info & Hl & _ & Hd & Hi & _).
  rewrite Hl, !map_app, IH. simpl. by rewrite Hd, Hi.
Qed.

(** C8. Every firing of the observer increments the counter of its depth
    and gives the new record that value as its order, leaving the other
    counters alone and appending the record to the list; so in any pass the
    records at each depth carry the orders 1, 2, 3, ... in observation
    order, whatever module they belong to, and the records are in call
    order. *)
Theorem observer_orders_per_depth batch_dim :
  (forall curr_depth module outputs ctx,
     idx (hook curr_depth batch_dim module outputs ctx) !! curr_depth
     = Some (default 0 (idx ctx !! curr_depth) + 1)%Z
     /\ (forall d, d <> curr_depth ->
           idx (hook curr_depth batch_dim module outputs ctx) !! d
           = idx ctx !! d)
     /\ exists info,
          summary_list (hook curr_depth batch_dim module outputs ctx)
          = summary_list ctx ++ [info]
          /\ order info = (default 0 (idx ctx !! curr_depth) + 1)%Z
          /\ depth info = curr_depth /\ identity info = m_id module)
  /\ (forall fs d,
        map order
            (at_depth d (summary_list (run_hooks batch_dim fs empty_ctx)))
        = map Z.of_nat
            (seq 1 (length (at_depth d
                      (summary_list (run_hooks batch_dim fs empty_ctx)))))
        /\ default 0%Z (idx (run_hooks batch_dim fs empty_ctx) !! d)
           = Z.of_nat (length (at_depth d
                         (summary_list (run_hooks batch_dim fs empty_ctx)))))
  /\ (forall fs,
        map (fun r => (depth r, identity r))
            (summary_list (run_hooks batch_dim fs empty_ctx))
        = map (fun f : firing => (f.1.1, m_id f.1.2)) fs).
Proof.
  split; [| split].
  - intros curr_depth module outputs ctx. rewrite hook_idx.
    split; [apply lookup_insert_eq |].
    split; [intros d Hd; by apply lookup_insert_ne |].
    destruct (hook_list curr_depth batch_dim module outputs ctx)
      as (info & Hl & Ho & Hd & Hi & _).
    by exists info.
  - intros fs d. destruct (run_hooks_counters batch_dim fs d). by split.
  - apply run_hooks_call_order.
Qed.

(** ** Parameter totals and the recursion flag *)

Lemma sum_over_add {A} (f g : A -> nat) l :
  sum_over (fun a => f a + g a) l = sum_over f l + sum_over g l.
Proof. induction l as [|a l IH]; simpl; [done |]. rewrite IH. lia. Qed.

Lemma sum_over_ext {A} (f g : A -> nat) l :
  Forall (fun a => f a = g a) l -> sum_over f l = sum_over g l.
Proof. induction 1 as [|a l Ha _ IH]; simpl; [done |]. by rewrite Ha, IH. Qed.

Lemma sum_nelement_app ps qs :
  sum_nelement (ps ++ qs) = sum_nelement ps + sum_nelement qs.
Proof. induction ps as [|p ps IH]; simpl; [done |]. rewrite IH. lia. Qed.

Lemma sum_nelement_split ps :
  sum_nelement (List.filter p_requires_grad ps)
  + sum_nelement (List.filter (fun p => negb (p_requires_grad p)) ps)
  = sum_nelement ps.
Proof.
  induction ps as [|p ps IH]; simpl; [done |].
  destruct (p_requires_grad p); simpl; lia.
Qed.

Lemma sum_nelement_flat_map (rs : list LayerInfo) :
  sum_nelement (flat_map owned rs)
  = sum_over (fun r => sum_nelement (owned r)) rs.
Proof.
  induction rs as [|r rs IH]; simpl; [done |].
  by rewrite sum_nelement_app, IH.
Qed.

Lemma attributed_snoc rs r :
  attributed (rs ++ [r])
  = attributed rs ++ (if is_recursive r then [] else owned r).
Proof.
  unfold attributed. rewrite List.filter_app, flat_map_app. simpl.
  destruct (is_recursive r); simpl; by rewrite ?app_nil_r.
Qed.

Lemma elem_of_seen i rs :
  i ∈ seen rs <-> exists p, p ∈ attributed rs /\ p_id p = i.
Proof.
  unfold seen. rewrite elem_of_list_to_set. split.
  - intros H. apply list_elem_of_fmap in H as (p & -> & Hp). by exists p.
  - intros (p & Hp & <-). apply list_elem_of_fmap. by exists p.
Qed.

Lemma existsb_seen ps rs :
  existsb (fun p => bool_decide (p_id p ∈ seen rs)) ps = true
  <-> exists p, p ∈ ps /\ p_id p ∈ seen rs.
Proof.
  rewrite existsb_exists. split.
  - intros (p & Hp & Hs). exists p.
    split; [by apply list_elem_of_In | by apply bool_decide_eq_true in Hs].
  - intros (p & Hp & Hs). exists p.
    split; [by apply list_elem_of_In | by apply bool_decide_eq_true].
Qed.

(** The invariant of a pass: every record counts its own tensors, no
    tensor is attributed twice, and the flag of each record was decided
    against the records before it. *)
Lemma run_hooks_records batch_dim fs :
  Forall counts_own_params (summary_list (run_hooks batch_dim fs empty_ctx))
  /\ NoDup (map p_id
              (attributed (summary_list (run_hooks batch_dim fs empty_ctx))))
  /\ forall k r,
       summary_list (run_hooks batch_dim fs empty_ctx) !! k = Some r ->
       is_recursive r
       = existsb
           (fun p => bool_decide
              (p_id p ∈ seen (take k (summary_list
                                        (run_hooks batch_dim fs empty_ctx)))))
           (owned r).
Proof.
  induction fs as [|f fs (IHc & IHn & IHf)] using rev_ind.
  - simpl. split; [constructor |]. split; [constructor |].
    intros k r Hk. by rewrite lookup_nil in Hk.
  - rewrite run_hooks_snoc.
    set (ctx := run_hooks batch_dim fs empty_ctx) in *.
    destruct (hook_list f.1.1 batch_dim f.1.2 f.2 ctx)
      as (info & -> & _ & _ & _ & Hm & Ht & Hz & Hr).
    assert (owned info = parameters f.1.2) as Ho by (unfold owned; by rewrite Hm).
    split; [| split].
    + apply Forall_app. split; [done |]. constructor; [| constructor].
      unfold counts_own_params. by rewrite Ho.
    + rewrite attributed_snoc, map_app. apply NoDup_app.
      split; [done |]. split.
      * intros i Hi Hi'. destruct (is_recursive info) eqn:Hrec;
          [by inversion Hi' |].
        rewrite Hr in Hrec. rewrite Ho in Hi'.
        apply list_elem_of_fmap in Hi' as (p & -> & Hp).
        assert (existsb (fun p => bool_decide (p_id p ∈ seen (summary_list ctx)))
                        (parameters f.1.2) = true) as Habs; [| congruence].
        apply existsb_seen. exists p. split; [done |].
        unfold seen. by apply elem_of_list_to_set.
      * destruct (is_recursive info); [constructor |].
        rewrite Ho. apply unique_by_NoDup.
    + intros k r Hk. destruct (decide (k < length (summary_list ctx))) as [Hlt|Hge].
      * rewrite lookup_app_l in Hk by done.
        rewrite take_app_le by lia. by apply IHf.
      * apply lookup_lt_Some in Hk as Hlen. rewrite length_app in Hlen.
        simpl in Hlen. assert (k = length (summary_list ctx)) as -> by lia.
        rewrite list_lookup_middle in Hk by done. injection Hk as <-.
        rewrite take_app_length. by rewrite Ho.
Qed.

Lemma count_NoDup (i : positive) (ps : list param) :
  NoDup (map p_id ps) ->
  length (List.filter (fun p => bool_decide (p_id p = i)) ps) <= 1
  /\ (length (List.filter (fun p => bool_decide (p_id p = i)) ps) = 1
      <-> i ∈ map p_id ps).
Proof.
  induction ps as [|p ps IH]; simpl; intros Hnd.
  - split; [lia |]. split; [lia | intros H; inversion H].
  - apply NoDup_cons in Hnd as [Hp Hnd]. destruct (IH Hnd) as [Hle Hiff].
    case_bool_decide as Hi; simpl.
    + subst i.
      assert (length (List.filter (fun q => bool_decide (p_id q = p_id p)) ps)
              = 0) as ->.
      { destruct (length _) as [|[|n]] eqn:Hlen; [done | | lia].
        exfalso. apply Hp. by apply Hiff. }
      split; [lia |]. split; [intros _; by left | done].
    + split; [done |]. rewrite Hiff. split; [by right |].
      intros H. by apply elem_of_cons in H as [? | ?].
Qed.

(** ** What [summary] returns, whatever the world *)

Lemma summary_rejected env a w e :
  a_verbose a ∈ [0; 1; 2]%Z ->
  prepare_input a (device_of env a) = Raise e ->
  summary env a w = (Raise e, instrument a w).
Proof. intros Hv Hin. rewrite summary_unfold by done. cbv zeta. by rewrite Hin. Qed.

Lemma summary_ok_inv env a w stats :
  wf_world w -> fst (summary env a w) = Ok stats ->
  exists input_size calls,
    stats = ModelStatistics_init (pass_records a calls) input_size
                                 (formatting_of a).
Proof.
  intros Hwf Hok.
  destruct (decide (a_verbose a ∈ [0; 1; 2]%Z)) as [Hv | Hv];
    [| by rewrite summary_bad_verbose in Hok].
  destruct (prepare_input a (device_of env a)) as [[input_size x] | e] eqn:Hin;
    [| by rewrite (summary_rejected _ _ _ e) in Hok].
  destruct (forward env (a_model a) (device_of env a)
              (map PTensor x ++ map (forward_arg (device_of env a)) (a_args a))
              (forward_kwargs (device_of env a) (a_kwargs a)))
    as [calls raised] eqn:Hfw.
  destruct (summary_pass env a w input_size x calls raised Hwf Hv Hin Hfw)
    as [Hres _].
  rewrite Hres in Hok. destruct raised; [done |]. injection Hok as <-.
  by exists input_size, calls.
Qed.

Lemma summary_result_indep env a w1 w2 :
  wf_world w1 -> wf_world w2 ->
  fst (summary env a w1) = fst (summary env a w2).
Proof.
  intros Hwf1 Hwf2.
  destruct (decide (a_verbose a ∈ [0; 1; 2]%Z)) as [Hv | Hv];
    [| by rewrite !summary_bad_verbose].
  destruct (prepare_input a (device_of env a)) as [[input_size x] | e] eqn:Hin;
    [| by rewrite !(summary_rejected _ _ _ e)].
  destruct (forward env (a_model a) (device_of env a)
              (map PTensor x ++ map (forward_arg (device_of env a)) (a_args a))
              (forward_kwargs (device_of env a) (a_kwargs a)))
    as [calls raised] eqn:Hfw.
  destruct (summary_pass env a w1 input_size x calls raised Hwf1 Hv Hin Hfw)
    as [-> _].
  by destruct (summary_pass env a w2 input_size x calls raised Hwf2 Hv Hin Hfw)
    as [-> _].
Qed.

Lemma summary_wf env a w : wf_world w -> wf_world (snd (summary env a w)).
Proof.
  intros Hwf.
  destruct (decide (a_verbose a ∈ [0; 1; 2]%Z)) as [Hv | Hv];
    [| by rewrite summary_bad_verbose].
  destruct (prepare_input a (device_of env a)) as [[input_size x] | e] eqn:Hin;
    [| rewrite (summary_rejected _ _ _ e) by done; by apply instrument_wf].
  destruct (forward env (a_model a) (device_of env a)
              (map PTensor x ++ map (forward_arg (device_of env a)) (a_args a))
              (forward_kwargs (device_of env a) (a_kwargs a)))
    as [calls raised] eqn:Hfw.
  destruct (summary_pass env a w input_size x calls raised Hwf Hv Hin Hfw)
    as (_ & Hh & Hn & Ho & _).
  unfold wf_world. rewrite Hh, Hn, Ho.
  eapply Forall_impl; [exact Hwf |]. simpl. intros he [? ?]. lia.
Qed.

Lemma empty_world_wf : wf_world empty_world.
Proof. constructor. Qed.

(** * Main results *)

(** C1, as the code has it. For every call of [summary] that returns
    statistics: [total_params = trainable_params + frozen_params]; the
    totals sum exactly the records whose [is_recursive] is false; the total
    is the sum of the element counts of the attributed tensors, each of
    which enters once; no tensor enters more than once, and a tensor enters
    exactly when it is owned by a record that is not recursive; and a
    record is recursive precisely when a parameter identity it owns was
    attributed by an earlier record of the pass. *)
Theorem totals_count_attributed_tensors_once env a w stats :
  wf_world w -> fst (summary env a w) = Ok stats ->
  total_params stats = trainable_params stats + frozen_params stats
  /\ total_params stats
     = sum_over (fun r => num_params_trainable r + num_params_frozen r)
                (List.filter (fun r => negb (is_recursive r)) (records stats))
  /\ total_params stats = sum_nelement (attributed (records stats))
  /\ (forall i, times_counted i (records stats) <= 1)
  /\ (forall i, times_counted i (records stats) = 1
                <-> i ∈ seen (records stats))
  /\ (forall k r, records stats !! k = Some r ->
        (is_recursive r = true
         <-> exists p, p ∈ owned r
                       /\ p_id p ∈ seen (take k (records stats)))).
Proof.
  intros Hwf Hok.
  destruct (summary_ok_inv env a w stats Hwf Hok) as (input_size & calls & ->).
  unfold pass_records. simpl.
  set (rs := summary_list (run_hooks _ _ _)).
  destruct (run_hooks_records (a_batch_dim a)
              (firings (walk (a_model a) (a_model a) (a_depth a) 0) calls))
    as (Hcount & Hnd & Hflag).
  fold rs in Hcount, Hnd, Hflag.
  split; [apply sum_over_add |]. split; [done |]. split; [| split; [| split]].
  - unfold attributed. rewrite sum_nelement_flat_map.
    apply sum_over_ext. apply filter_sub.
    eapply Forall_impl; [exact Hcount |]. simpl. intros r [-> ->].
    apply sum_nelement_split.
  - intros i. by apply count_NoDup.
  - intros i. unfold times_counted, seen. rewrite elem_of_list_to_set.
    by apply count_NoDup.
  - intros k r Hk. rewrite (Hflag k r Hk). apply existsb_seen.
Qed.

(** C1, as stated, fails.  With tied weights the decoder owns the encoder's
    weight tensor and a bias of its own; its record is recursive, so its
    bias, owned by no other record, is counted zero times, and the total is
    50 where the distinct tensors hold 55 elements. *)
Lemma tied_decoder_bias_not_counted :
  exists stats r,
    fst (summary returning_env (args_for tied_model shape_1_10 3) empty_world)
    = Ok stats
    /\ records stats !! 1 = Some r
    /\ is_recursive r = true
    /\ owned r = [weight 10; bias 11]
    /\ times_counted 11 (records stats) = 0
    /\ times_counted 11 (records stats) <> 1
    /\ total_params stats = 50.
Proof.
  eexists _, _. split; [vm_compute; reflexivity |].
  split; [reflexivity |]. vm_compute. repeat split; lia.
Qed.

Lemma totals_count_attributed_tensors_once_witness :
  exists stats,
    fst (summary returning_env (args_for tied_model shape_1_10 3) empty_world)
    = Ok stats
    /\ total_params stats = trainable_params stats + frozen_params stats
    /\ forall i, times_counted i (records stats) <= 1.
Proof.
  eexists. split; [vm_compute; reflexivity |].
  match goal with
  | |- total_params ?s = _ /\ _ =>
      destruct (totals_count_attributed_tensors_once
                  returning_env (args_for tied_model shape_1_10 3)
                  empty_world s empty_world_wf)
        as (Ht & _ & _ & Hc & _); [vm_compute; reflexivity | by split]
  end.
Defined.

(** ** What the walker installs *)

Lemma installed_walk model depth sink batch_dim :
  installed model depth sink batch_dim
  = map (entry sink batch_dim) (walk model model depth 0).
Proof.
  unfold installed. rewrite apply_hooks_walk, register_all_spec. simpl.
  apply map_snd_zip. apply length_seq.
Qed.

Lemma entry_inj sink batch_dim md md' :
  entry sink batch_dim md = entry sink batch_dim md' -> md = md'.
Proof. destruct md, md'. unfold entry. simpl. by intros [= -> ->]. Qed.

Lemma elem_of_installed model depth sink batch_dim e :
  e ∈ installed model depth sink batch_dim <->
  exists m d, e = entry sink batch_dim (m, d)
              /\ visited model depth m d /\ instrumented m model = true.
Proof.
  rewrite installed_walk. unfold visited. split.
  - intros H. apply list_elem_of_fmap in H as ([m d] & -> & H).
    apply walk_reaches in H. by exists m, d.
  - intros (m & d & -> & H). apply list_elem_of_fmap. exists (m, d).
    split; [done |]. by apply walk_reaches.
Qed.

Lemma visited_path model depth m d :
  visited model depth m d <->
  exists n : nat, path model n m /\ d = Z.of_nat n
                  /\ (n = 0 \/ (Z.of_nat n <= depth + 1)%Z).
Proof. unfold visited. rewrite reaches_path. by setoid_rewrite Z.add_0_l. Qed.

Lemma visited_root_or_below model depth m d :
  visited model depth m d -> m = model \/ m ∈ descendants model.
Proof.
  intros H. apply visited_path in H as (n & Hp & _).
  apply path_descendant in Hp as [[_ ->] | [_ Hp]]; [by left | by right].
Qed.

Lemma visited_same_id model depth m d :
  not_below_itself model -> visited model depth m d ->
  m_id m = m_id model -> m = model.
Proof.
  intros Hwf Hv Hid. apply visited_root_or_below in Hv as [-> | Hv]; [done |].
  unfold not_below_itself in Hwf. rewrite Forall_forall in Hwf.
  by apply Hwf in Hv.
Qed.

(** C2, as the code has it. On a model that is not below itself, the hooks
    the walker leaves are exactly those of the visited nodes that are not
    the root, or are of an atomic type, or have no modules below them.  So
    a visited node gets its hook if and only if one of the three holds, the
    root only in the last two cases, and every visited node other than the
    root always; a node the walker does not visit gets none. *)
Theorem hook_iff_not_root_or_atomic_or_leaf model max_depth sink batch_dim :
  not_below_itself model ->
  (forall e,
     e ∈ installed model max_depth sink batch_dim <->
     exists m d,
       e = entry sink batch_dim (m, d) /\ visited model max_depth m d
       /\ (m_id m <> m_id model \/ isinstance m LAYER_MODULES = true
           \/ descendants m = []))
  /\ (forall m d, visited model max_depth m d ->
        (entry sink batch_dim (m, d) ∈ installed model max_depth sink batch_dim
         <-> m_id m <> m_id model \/ isinstance m LAYER_MODULES = true
             \/ descendants m = []))
  /\ (entry sink batch_dim (model, 0%Z)
        ∈ installed model max_depth sink batch_dim
      <-> isinstance model LAYER_MODULES = true \/ descendants model = [])
  /\ (forall m d, visited model max_depth m d -> m_id m <> m_id model ->
        entry sink batch_dim (m, d)
          ∈ installed model max_depth sink batch_dim).
Proof.
  intros Hwf.
  assert (forall m d, visited model max_depth m d ->
            instrumented m model = true <->
            m_id m <> m_id model \/ isinstance m LAYER_MODULES = true
            \/ descendants m = []) as Hrule.
  { intros m d Hv. apply instrumented_iff. intros Hid.
    by rewrite (visited_same_id model max_depth m d Hwf Hv Hid). }
  assert (forall m d, visited model max_depth m d ->
            (entry sink batch_dim (m, d)
               ∈ installed model max_depth sink batch_dim
             <-> m_id m <> m_id model \/ isinstance m LAYER_MODULES = true
                 \/ descendants m = [])) as Hvis.
  { intros m d Hv. rewrite <- (Hrule m d Hv), elem_of_installed. split.
    - intros (m' & d' & Heq & _ & Hi). apply entry_inj in Heq.
      by injection Heq as -> ->.
    - intros Hi. by exists m, d. }
  split; [| split; [exact Hvis | split]].
  - intros e. rewrite elem_of_installed. split.
    + intros (m & d & -> & Hv & Hi). exists m, d.
      split; [done |]. split; [done |]. by apply (Hrule m d).
    + intros (m & d & -> & Hv & Hi). exists m, d.
      split; [done |]. split; [done |]. by apply (Hrule m d).
  - rewrite (Hvis model 0%Z) by constructor. split.
    + intros [H | H]; [done | exact H].
    + intros H. by right.
  - intros m d Hv Hne. apply (Hvis m d Hv). by left.
Qed.

Lemma hook_iff_not_root_or_atomic_or_leaf_witness :
  not_below_itself sequential_model
  /\ entry 0 0 (Linear 2 [weight 10; bias 11], 1%Z)
       ∈ installed sequential_model 3 0 0
  /\ ~ entry 0 0 (sequential_model, 0%Z) ∈ installed sequential_model 3 0 0.
Proof.
  assert (not_below_itself sequential_model) as Hwf.
  { repeat constructor. done. }
  destruct (hook_iff_not_root_or_atomic_or_leaf sequential_model 3 0 0 Hwf)
    as (_ & _ & Hroot & Hother).
  split; [exact Hwf |]. split.
  - apply Hother; [| done].
    apply (reaches_child 3 sequential_model 0 (Linear 2 [weight 10; bias 11]));
      [lia | | constructor].
    apply list_elem_of_In. vm_compute. by left.
  - rewrite Hroot. intros [H | H]; vm_compute in H; discriminate.
Defined.

(** C2, as stated, fails.  With [depth = 1] the linear layer three levels
    below the root is a node of the graph and is not the root, yet the
    walker never reaches it and it gets no hook. *)
Lemma unvisited_node_gets_no_hook :
  path nested_model 3 deep_linear
  /\ m_id deep_linear <> m_id nested_model
  /\ installed nested_model 1 0 0
     = [entry 0 0 (outer_container, 1%Z); entry 0 0 (inner_container, 2%Z)]
  /\ Forall (fun e => he_module e <> deep_linear) (installed nested_model 1 0 0).
Proof.
  split.
  { apply (path_child _ outer_container);
      [apply list_elem_of_In; vm_compute; by left |].
    apply (path_child _ inner_container);
      [apply list_elem_of_In; vm_compute; by left |].
    apply (path_child _ deep_linear);
      [apply list_elem_of_In; vm_compute; by left | constructor]. }
  split; [done |].
  assert (installed nested_model 1 0 0
          = [entry 0 0 (outer_container, 1%Z);
             entry 0 0 (inner_container, 2%Z)]) as Heq
    by (vm_compute; reflexivity).
  split; [exact Heq |]. rewrite Heq. repeat constructor; done.
Qed.

(** ** Records come from the hooks of the walk *)

Lemma run_hooks_modules batch_dim fs :
  map (fun r => (li_module r, depth r))
      (summary_list (run_hooks batch_dim fs empty_ctx))
  = map (fun f : firing => (f.1.2, f.1.1)) fs.
Proof.
  induction fs as [|f fs IH] using rev_ind; [done |].
  rewrite run_hooks_snoc.
  destruct (hook_list f.1.1 batch_dim f.1.2 f.2
              (run_hooks batch_dim fs empty_ctx))
    as (info & Hl & _ & Hd & _ & Hm & _).
  rewrite Hl, !map_app, IH. simpl. by rewrite Hd, Hm.
Qed.

Lemma firings_from_walk ws calls (f : firing) :
  f ∈ firings ws calls -> (f.1.2, f.1.1) ∈ ws.
Proof.
  unfold firings. intros H.
  apply list_elem_of_In, in_flat_map in H as (call & _ & H).
  apply in_map_iff in H as ([m d] & <- & H).
  apply filter_In in H as [H _]. by apply list_elem_of_In.
Qed.

Lemma pass_records_visited a calls r :
  r ∈ pass_records a calls ->
  visited (a_model a) (a_depth a) (li_module r) (depth r)
  /\ instrumented (li_module r) (a_model a) = true.
Proof.
  unfold pass_records. intros Hr.
  assert ((li_module r, depth r)
            ∈ map (fun r => (li_module r, depth r))
                  (summary_list
                     (run_hooks (a_batch_dim a)
                        (firings (walk (a_model a) (a_model a) (a_depth a) 0)
                                 calls) empty_ctx))) as Hin.
  { apply list_elem_of_fmap. by exists r. }
  rewrite run_hooks_modules in Hin.
  apply list_elem_of_fmap in Hin as (f & Heq & Hf).
  apply firings_from_walk in Hf. rewrite <- Heq in Hf.
  by apply walk_reaches in Hf.
Qed.

Lemma visited_bound model depth m d :
  visited model depth m d -> (0 <= d <= Z.max 0 (depth + 1))%Z.
Proof. intros H. apply visited_path in H as (n & _ & -> & Hn). lia. Qed.

Lemma firings_elem ws calls (md : nn_Module * Z) (call : positive * pyval) :
  md ∈ ws -> call ∈ calls -> m_id md.1 = call.1 ->
  (md.2, md.1, call.2) ∈ firings ws calls.
Proof.
  intros Hmd Hcall Hid. unfold firings.
  apply list_elem_of_In, in_flat_map. exists call.
  split; [by apply list_elem_of_In |].
  apply in_map_iff. exists md. split; [done |].
  apply filter_In. split; [by apply list_elem_of_In |].
  by apply bool_decide_eq_true.
Qed.

Lemma path_snoc m n m' c :
  path m n m' -> c ∈ children m' -> path m (S n) c.
Proof.
  intros Hp Hc. induction Hp as [m | m c' n m' Hc' _ IH].
  - econstructor; [done | constructor].
  - econstructor; [done | by apply IH].
Qed.

(** A hook of the walk on a module that is called leaves a record. *)
Lemma pass_records_from_hook a calls m d outputs :
  (m, d) ∈ walk (a_model a) (a_model a) (a_depth a) 0 ->
  (m_id m, outputs) ∈ calls ->
  exists r, r ∈ pass_records a calls /\ li_module r = m /\ depth r = d.
Proof.
  intros Hmd Hcall.
  pose proof (firings_elem _ calls (m, d) (m_id m, outputs) Hmd Hcall eq_refl)
    as Hf. simpl in Hf.
  assert ((m, d)
            ∈ map (fun r => (li_module r, depth r)) (pass_records a calls))
    as Hin.
  { unfold pass_records. rewrite run_hooks_modules.
    apply list_elem_of_fmap. by exists (d, m, outputs). }
  apply list_elem_of_fmap in Hin as (r & Heq & Hr).
  injection Heq as -> ->. by exists r.
Qed.

(** C3, as the code has it. The walker calls itself on the children of a
    node only while [curr_depth <= depth], the root being at depth 0: a
    node is visited exactly when it lies [n] levels below the root with
    [n = 0] or [n <= depth + 1].  Every hook sits on a visited node and
    every record of a pass comes from one, so no hook and no record has a
    depth beyond [max 0 (depth + 1)].  Conversely every node within that
    bound that passes the instrumentation test, as every node other than
    the root does, gets its hook, also one level beyond [depth], and its
    call leaves a record of that depth. *)
Theorem walker_visits_one_level_beyond_depth a sink :
  (forall m d,
     visited (a_model a) (a_depth a) m d <->
     exists n : nat, path (a_model a) n m /\ d = Z.of_nat n
                     /\ (n = 0 \/ (Z.of_nat n <= a_depth a + 1)%Z))
  /\ (forall m d c,
        visited (a_model a) (a_depth a) m d -> (d <= a_depth a)%Z ->
        c ∈ children m -> visited (a_model a) (a_depth a) c (d + 1))
  /\ (forall e,
        e ∈ installed (a_model a) (a_depth a) sink (a_batch_dim a) ->
        visited (a_model a) (a_depth a) (he_module e) (he_depth e)
        /\ (0 <= he_depth e <= Z.max 0 (a_depth a + 1))%Z)
  /\ (forall calls r,
        r ∈ pass_records a calls ->
        visited (a_model a) (a_depth a) (li_module r) (depth r)
        /\ (0 <= depth r <= Z.max 0 (a_depth a + 1))%Z)
  /\ (forall m (n : nat),
        path (a_model a) n m ->
        n = 0 \/ (Z.of_nat n <= a_depth a + 1)%Z ->
        instrumented m (a_model a) = true ->
        entry sink (a_batch_dim a) (m, Z.of_nat n)
          ∈ installed (a_model a) (a_depth a) sink (a_batch_dim a))
  /\ (forall m (n : nat),
        path (a_model a) n m ->
        (Z.of_nat n <= a_depth a + 1)%Z ->
        m_id m <> m_id (a_model a) ->
        entry sink (a_batch_dim a) (m, Z.of_nat n)
          ∈ installed (a_model a) (a_depth a) sink (a_batch_dim a))
  /\ (forall calls m d outputs,
        entry sink (a_batch_dim a) (m, d)
          ∈ installed (a_model a) (a_depth a) sink (a_batch_dim a) ->
        (m_id m, outputs) ∈ calls ->
        exists r, r ∈ pass_records a calls
                  /\ li_module r = m /\ depth r = d).
Proof.
  assert (forall m (n : nat),
            path (a_model a) n m ->
            n = 0 \/ (Z.of_nat n <= a_depth a + 1)%Z ->
            instrumented m (a_model a) = true ->
            entry sink (a_batch_dim a) (m, Z.of_nat n)
              ∈ installed (a_model a) (a_depth a) sink (a_batch_dim a))
    as Hlower.
  { intros m n Hp Hn Hi. apply elem_of_installed. exists m, (Z.of_nat n).
    split; [done |]. split; [| done]. apply visited_path. by exists n. }
  split; [intros m d; apply visited_path |].
  split; [| split; [| split; [| split; [exact Hlower | split]]]].
  - intros m d c Hv Hd Hc. apply visited_path in Hv as (n & Hp & -> & Hn).
    apply visited_path. exists (S n). split; [| split; [lia | right; lia]].
    by eapply path_snoc.
  - intros e He. apply elem_of_installed in He as (m & d & -> & Hv & _).
    simpl. split; [done | by eapply visited_bound].
  - intros calls r Hr. apply pass_records_visited in Hr as [Hv _].
    split; [done | by eapply visited_bound].
  - intros m n Hp Hn Hne. apply Hlower; [done | by right |].
    by apply instrumented_not_root.
  - intros calls m d outputs He Hcall.
    apply (pass_records_from_hook a calls m d outputs); [| done].
    rewrite installed_walk in He.
    apply list_elem_of_fmap in He as (md & Heq & Hmd).
    apply entry_inj in Heq. by subst md.
Qed.

(** C3, as stated, fails.  With [depth = 1] the inner container lies two
    levels below the root, beyond [depth]; it is visited all the same, gets
    a hook, and its call leaves a record of depth 2.  The linear layer three
    levels down is the first to be pruned. *)
Lemma node_beyond_depth_is_observed :
  path nested_model 2 inner_container
  /\ (1 < 2)%Z
  /\ visited nested_model 1 inner_container 2
  /\ installed nested_model 1 0 0
     = [entry 0 0 (outer_container, 1%Z); entry 0 0 (inner_container, 2%Z)]
  /\ exists stats,
       fst (summary returning_env (args_for nested_model shape_1_10 1)
                    empty_world) = Ok stats
       /\ map (fun r => (identity r, depth r)) (records stats)
          = [(2%positive, 1%Z); (3%positive, 2%Z)].
Proof.
  assert (outer_container ∈ children nested_model) as Ho.
  { apply list_elem_of_In. vm_compute. by left. }
  assert (inner_container ∈ children outer_container) as Hi.
  { apply list_elem_of_In. vm_compute. by left. }
  split; [repeat (econstructor; [eassumption |]); constructor |].
  split; [lia |]. split.
  - eapply reaches_child; [lia | exact Ho |].
    eapply reaches_child; [lia | exact Hi | constructor].
  - split; [vm_compute; reflexivity |].
    eexists. split; vm_compute; reflexivity.
Qed.

Lemma walker_visits_one_level_beyond_depth_witness :
  (visited nested_model 1 inner_container 2
   /\ (0 <= 2 <= Z.max 0 (1 + 1))%Z)
  /\ entry 0 0 (inner_container, 2%Z) ∈ installed nested_model 1 0 0.
Proof.
  destruct (walker_visits_one_level_beyond_depth
              (args_for nested_model shape_1_10 1) 0)
    as (_ & _ & Hhook & _ & _ & Hlower & _).
  split.
  - apply (Hhook (entry 0 0 (inner_container, 2%Z))).
    apply list_elem_of_In. vm_compute. right. by left.
  - apply (Hlower inner_container 2); [| simpl; lia | done].
    apply (path_child _ outer_container);
      [apply list_elem_of_In; vm_compute; by left |].
    apply (path_child _ inner_container);
      [apply list_elem_of_In; vm_compute; by left | constructor].
Defined.

Lemma path_zero m m' : path m 0 m' -> m' = m.
Proof. by inversion 1. Qed.

(** C7, as the code has it. The walk starts at depth 0 on the root itself:
    a hook's depth, and so the depth of every record it builds, is the
    number of levels of [children()] between the root and the node along
    which the walker reached it.  Only the root has depth 0, and the
    direct children of the root are observed at depth 1. *)
Theorem record_depth_is_distance_from_root a sink :
  (forall e,
     e ∈ installed (a_model a) (a_depth a) sink (a_batch_dim a) ->
     exists n : nat, path (a_model a) n (he_module e)
                     /\ he_depth e = Z.of_nat n)
  /\ (forall c,
        c ∈ children (a_model a) -> m_id c <> m_id (a_model a) ->
        (0 <= a_depth a)%Z ->
        entry sink (a_batch_dim a) (c, 1%Z)
          ∈ installed (a_model a) (a_depth a) sink (a_batch_dim a))
  /\ (forall calls r,
        r ∈ pass_records a calls ->
        exists n : nat, path (a_model a) n (li_module r)
                        /\ depth r = Z.of_nat n)
  /\ (forall calls r,
        r ∈ pass_records a calls -> depth r = 0%Z ->
        li_module r = a_model a).
Proof.
  split; [| split; [| split]].
  - intros e He. apply elem_of_installed in He as (m & d & -> & Hv & _).
    apply visited_path in Hv as (n & Hp & -> & _). by exists n.
  - intros c Hc Hne Hd. apply elem_of_installed. exists c, 1%Z.
    split; [done |]. split; [| by apply instrumented_not_root].
    eapply reaches_child; [lia | done | constructor].
  - intros calls r Hr. apply pass_records_visited in Hr as [Hv _].
    apply visited_path in Hv as (n & Hp & -> & _). by exists n.
  - intros calls r Hr Hz. apply pass_records_visited in Hr as [Hv _].
    apply visited_path in Hv as (n & Hp & Hd & _).
    assert (n = 0) as -> by lia. by apply path_zero.
Qed.

(** C7, as stated, fails.  The linear layer is a direct child of the root
    and its record has depth 1, not 0. *)
Lemma direct_child_record_has_depth_one :
  Linear 2 [weight 10; bias 11] ∈ children sequential_model
  /\ exists stats,
       fst (summary returning_env (args_for sequential_model shape_1_10 3)
                    empty_world) = Ok stats
       /\ map (fun r => (li_module r, depth r)) (records stats)
          = [(Linear 2 [weight 10; bias 11], 1%Z)]
       /\ Forall (fun r => depth r <> 0%Z) (records stats).
Proof.
  split; [apply list_elem_of_In; vm_compute; by left |].
  eexists. split; [vm_compute; reflexivity |].
  split; [vm_compute; reflexivity |]. repeat constructor. done.
Qed.

Lemma record_depth_is_distance_from_root_witness :
  entry 0 0 (Linear 2 [weight 10; bias 11], 1%Z)
    ∈ installed sequential_model 3 0 0.
Proof.
  destruct (record_depth_is_distance_from_root
              (args_for sequential_model shape_1_10 3) 0) as (_ & Hc & _).
  apply (Hc (Linear 2 [weight 10; bias 11])); [| done | done].
  apply list_elem_of_In. vm_compute. by left.
Defined.

(** ** Input tensors *)

Lemma wrap_dim_ok dim n :
  (- n <= dim < n)%Z ->
  wrap_dim dim n = Ok (Z.to_nat (if (dim <? 0)%Z then dim + n else dim)).
Proof.
  intros [Hlo Hhi]. unfold wrap_dim.
  apply Z.leb_le in Hlo. apply Z.ltb_lt in Hhi. by rewrite Hlo, Hhi.
Qed.


Lemma map_result_dim_of dims :
  Forall (fun z => (int64_min <= z <= int64_max)%Z) dims ->
  map_result dim_of (map SInt dims) = Ok dims.
Proof.
  induction 1 as [|z dims [Hlo Hhi] _ IH]; simpl; [done |].
  apply Z.leb_le in Hlo. apply Z.leb_le in Hhi. by rewrite Hlo, Hhi, IH.
Qed.


Lemma rand_size_ints dims :
  dims <> [] -> rand_size (map SInt dims) = map_result dim_of (map SInt dims).
Proof. by destruct dims as [|z [|z' dims]]. Qed.

Lemma positive_dims_fit dims :
  Forall (fun z => (0 < z)%Z) dims ->
  Forall (fun z => (z <= int64_max)%Z) dims ->
  Forall (fun z => (int64_min <= z <= int64_max)%Z) dims.
Proof.
  rewrite !Forall_forall. intros Hpos Hmax z Hz.
  specialize (Hpos z Hz). specialize (Hmax z Hz). unfold int64_min. lia.
Qed.

Lemma rand_accepts size dims :
  rand_size size = Ok dims -> Forall (fun z => (0 < z)%Z) dims ->
  torch_rand size
  = Ok {| t_shape := dims; t_dtype := torch_float; t_device := Cpu;
          t_data := Rand dims |}.
Proof.
  intros Hsize Hpos. unfold torch_rand. rewrite Hsize. cbn [bind].
  assert (forallb (fun z => (0 <=? z)%Z) dims = true) as ->; [| done].
  apply forallb_forall. intros z Hz. rewrite Forall_forall in Hpos.
  apply list_elem_of_In, Hpos in Hz. apply Z.leb_le. lia.
Qed.

Lemma torch_rand_ok dims :
  dims <> [] -> Forall (fun z => (0 < z)%Z) dims ->
  Forall (fun z => (z <= int64_max)%Z) dims ->
  torch_rand (map SInt dims)
  = Ok {| t_shape := dims; t_dtype := torch_float; t_device := Cpu;
          t_data := Rand dims |}.
Proof.
  intros Hne Hpos Hmax. apply rand_accepts; [| done].
  rewrite rand_size_ints by done.
  by apply map_result_dim_of, positive_dims_fit.
Qed.

(** Doubling the unit dimension an [unsqueeze] has just inserted. *)
Lemma torch_cat_twice pre post ty dev dat (dim : Z) k :
  length pre = k ->
  wrap_dim dim (Z.of_nat (length (pre ++ 1%Z :: post))) = Ok k ->
  let t := {| t_shape := pre ++ 1%Z :: post; t_dtype := ty;
              t_device := dev; t_data := dat |} in
  torch_cat [t; t] dim
  = Ok {| t_shape := pre ++ 2%Z :: post; t_dtype := ty; t_device := dev;
          t_data := Cat [dat; dat] dim |}.
Proof.
  intros Hk Hw t. unfold torch_cat. subst t. cbn [t_shape]. rewrite Hw.
  cbn [bind forallb map t_shape t_dtype t_device t_data fold_right].
  unfold same_off_dim. rewrite bool_decide_eq_true_2 by done. cbn [andb].
  subst k. rewrite nth_middle, take_app_length.
  replace (pre ++ 1%Z :: post) with ((pre ++ [1%Z]) ++ post)
    by (by rewrite <- app_assoc).
  rewrite drop_app_length' by (rewrite length_app; simpl; lia).
  done.
Qed.

Lemma input_tensor_in_range args dims batch_dim device dtype size :
  size = SList args \/ size = STuple args ->
  torch_rand args
  = Ok {| t_shape := dims; t_dtype := torch_float; t_device := Cpu;
          t_data := Rand dims |} ->
  (- (Z.of_nat (length dims) + 1) <= batch_dim <= Z.of_nat (length dims))%Z ->
  exists t k,
    input_tensor_of batch_dim device (size, dtype) = Ok t
    /\ get_input_tensor [size] batch_dim [dtype] device = Ok [t]
    /\ k = Z.to_nat (if (batch_dim <? 0)%Z
                     then batch_dim + (Z.of_nat (length dims) + 1)
                     else batch_dim)
    /\ t_shape t = take k dims ++ 2%Z :: drop k dims
    /\ length (t_shape t) = S (length dims)
    /\ t_shape t !! k = Some 2%Z
    /\ delete k (t_shape t) = dims
    /\ t_data t = Cat [Unsqueeze (Rand dims) batch_dim;
                       Unsqueeze (Rand dims) batch_dim] batch_dim
    /\ t_device t = device /\ t_dtype t = dtype.
Proof.
  intros Hsize Hrand Hdim.
  set (n := Z.of_nat (length dims)) in *.
  set (k := Z.to_nat (if (batch_dim <? 0)%Z then batch_dim + (n + 1)
                      else batch_dim)).
  assert (k <= length dims) as Hk.
  { subst k. destruct (batch_dim <? 0)%Z eqn:Hneg; lia. }
  assert (length (take k dims) = k) as Hpre by (rewrite length_take; lia).
  assert (input_tensor_of batch_dim device (size, dtype)
          = Ok (tensor_type
                  (tensor_to
                     {| t_shape := take k dims ++ 2%Z :: drop k dims;
                        t_dtype := torch_float; t_device := Cpu;
                        t_data := Cat [Unsqueeze (Rand dims) batch_dim;
                                       Unsqueeze (Rand dims) batch_dim]
                                      batch_dim |} device) dtype)) as Hres.
  { assert ((input_tensor <- torch_rand args ;;
             input_tensor <- unsqueeze input_tensor batch_dim ;;
             torch_cat [input_tensor; input_tensor] batch_dim)
            = Ok {| t_shape := take k dims ++ 2%Z :: drop k dims;
                    t_dtype := torch_float; t_device := Cpu;
                    t_data := Cat [Unsqueeze (Rand dims) batch_dim;
                                   Unsqueeze (Rand dims) batch_dim]
                                  batch_dim |}) as Hbody.
    { rewrite Hrand. cbn [bind]. unfold unsqueeze.
      cbn [t_shape t_dtype t_device t_data]. fold n.
      rewrite wrap_dim_ok by lia. cbn [bind]. fold k.
      apply (torch_cat_twice (take k dims) (drop k dims) torch_float Cpu
               (Unsqueeze (Rand dims) batch_dim) batch_dim k); [done |].
      rewrite length_app. cbn [length]. rewrite Hpre, length_drop.
      replace (Z.of_nat (k + S (length dims - k))) with (n + 1)%Z by lia.
      rewrite wrap_dim_ok by lia. done. }
    unfold input_tensor_of.
    destruct Hsize as [-> | ->]; by rewrite Hbody. }
  eexists _, k. split; [exact Hres |].
  split.
  { unfold get_input_tensor. change (zip [size] [dtype]) with [(size, dtype)].
    cbn [map_result]. by rewrite Hres. }
  split; [done |].
  cbn [tensor_type tensor_to t_shape t_data t_device t_dtype].
  split; [done |]. split.
  { rewrite length_app. cbn [length]. rewrite Hpre, length_drop. lia. }
  split.
  { rewrite lookup_app_r by lia. by rewrite Hpre, Nat.sub_diag. }
  split; [| done].
  rewrite <- Hpre at 1. rewrite delete_middle. apply take_drop.
Qed.


Lemma input_tensor_rand_fails args e batch_dim device dtype size :
  size = SList args \/ size = STuple args ->
  torch_rand args = Raise e ->
  input_tensor_of batch_dim device (size, dtype) = Raise e.
Proof.
  intros Hsize Hrand. unfold input_tensor_of.
  destruct Hsize as [-> | ->]; by rewrite Hrand.
Qed.




(** ** The pass: cleanup, diagnostics, keyword arguments *)

(** C5. Once the input is accepted, whether the forward call returns or
    raises, [summary] leaves the hooks of the model as it found them: every
    handle it registered is removed.  A second call on the same model then
    returns what the first returned, built from the records of its own pass
    only. *)
Theorem hooks_removed_on_every_exit env a w input_size x calls raised :
  wf_world w ->
  prepare_input a (device_of env a) = Ok (input_size, x) ->
  forward env (a_model a) (device_of env a)
          (map PTensor x ++ map (forward_arg (device_of env a)) (a_args a))
          (forward_kwargs (device_of env a) (a_kwargs a)) = (calls, raised) ->
  w_hooks (snd (summary env a w)) = w_hooks w
  /\ (a_verbose a ∈ [0; 1; 2]%Z ->
      fst (summary env a w)
      = match raised with
        | Some e => Raise e
        | None => Ok (ModelStatistics_init (pass_records a calls) input_size
                                           (formatting_of a))
        end)
  /\ fst (summary env a (snd (summary env a w))) = fst (summary env a w)
  /\ w_hooks (snd (summary env a (snd (summary env a w)))) = w_hooks w.
Proof.
  intros Hwf Hin Hfw.
  assert (forall w', wf_world w' -> w_hooks (snd (summary env a w')) = w_hooks w')
    as Hsame.
  { intros w' Hwf'.
    destruct (decide (a_verbose a ∈ [0; 1; 2]%Z)) as [Hv | Hv];
      [| by rewrite summary_bad_verbose].
    by destruct (summary_pass env a w' input_size x calls raised Hwf' Hv Hin Hfw)
      as (_ & Hh & _). }
  split; [by apply Hsame |]. split; [| split].
  - intros Hv.
    by destruct (summary_pass env a w input_size x calls raised Hwf Hv Hin Hfw).
  - apply summary_result_indep; [by apply summary_wf | done].
  - rewrite Hsame by (by apply summary_wf). by apply Hsame.
Qed.

Lemma hooks_removed_on_every_exit_witness :
  w_hooks (snd (summary (raising_env RuntimeError)
                        (args_for sequential_model shape_1_10 3) empty_world))
  = [].
Proof.
  destruct (hooks_removed_on_every_exit (raising_env RuntimeError)
              (args_for sequential_model shape_1_10 3) empty_world
              [STuple [SInt 1; SInt 10]]
              [{| t_shape := [2; 1; 10]%Z; t_dtype := torch_float;
                  t_device := Cpu;
                  t_data := Cat [Unsqueeze (Rand [1; 10]%Z) 0;
                                 Unsqueeze (Rand [1; 10]%Z) 0] 0 |}]
              [(2%positive, out_tensor)]
              (Some {| exn_cls := RuntimeError; exn_msg := "stop" |}))
    as (Hh & _).
  - apply empty_world_wf.
  - vm_compute. reflexivity.
  - reflexivity.
  - exact Hh.
Defined.

(** C6, as the code has it. When the forward call raises [e], [summary]
    raises the same [e], with the hooks removed.  If [e] is an instance of
    [Exception], exactly one diagnostic is printed before that, and it
    holds the records of the module calls that completed before the
    failure; if [e] is not (a [KeyboardInterrupt], a [SystemExit]), nothing
    is printed. *)
Theorem forward_failure_reraised env a w input_size x calls e :
  wf_world w -> a_verbose a ∈ [0; 1; 2]%Z ->
  prepare_input a (device_of env a) = Ok (input_size, x) ->
  forward env (a_model a) (device_of env a)
          (map PTensor x ++ map (forward_arg (device_of env a)) (a_args a))
          (forward_kwargs (device_of env a) (a_kwargs a)) = (calls, Some e) ->
  fst (summary env a w) = Raise e
  /\ w_stdout (snd (summary env a w))
     = w_stdout w
       ++ (if is_Exception (exn_cls e)
           then [MsgFailed (pass_records a calls)] else [])
  /\ w_hooks (snd (summary env a w)) = w_hooks w.
Proof.
  intros Hwf Hv Hin Hfw.
  destruct (summary_pass env a w input_size x calls (Some e) Hwf Hv Hin Hfw)
    as (Hres & Hh & _ & _ & Hout & _).
  by repeat split.
Qed.

(** C6, as stated, fails.  A forward call stopped by [KeyboardInterrupt]
    after the linear layer completed: the interrupt reaches the caller, but
    no diagnostic is printed, although one record had been captured. *)
Lemma interrupt_prints_no_diagnostic :
  fst (summary (raising_env KeyboardInterrupt)
               (args_for sequential_model shape_1_10 3) empty_world)
  = Raise {| exn_cls := KeyboardInterrupt; exn_msg := "stop" |}
  /\ w_stdout (snd (summary (raising_env KeyboardInterrupt)
                            (args_for sequential_model shape_1_10 3)
                            empty_world)) = []
  /\ length (pass_records (args_for sequential_model shape_1_10 3)
                          [(2%positive, out_tensor)]) = 1.
Proof. vm_compute. by repeat split. Qed.

Lemma forward_failure_reraised_witness :
  fst (summary (raising_env RuntimeError)
               (args_for sequential_model shape_1_10 3) empty_world)
  = Raise {| exn_cls := RuntimeError; exn_msg := "stop" |}
  /\ w_stdout (snd (summary (raising_env RuntimeError)
                            (args_for sequential_model shape_1_10 3)
                            empty_world))
     = [MsgFailed (pass_records (args_for sequential_model shape_1_10 3)
                                [(2%positive, out_tensor)])].
Proof.
  destruct (forward_failure_reraised (raising_env RuntimeError)
              (args_for sequential_model shape_1_10 3) empty_world
              [STuple [SInt 1; SInt 10]]
              [{| t_shape := [2; 1; 10]%Z; t_dtype := torch_float;
                  t_device := Cpu;
                  t_data := Cat [Unsqueeze (Rand [1; 10]%Z) 0;
                                 Unsqueeze (Rand [1; 10]%Z) 0] 0 |}]
              [(2%positive, out_tensor)]
              {| exn_cls := RuntimeError; exn_msg := "stop" |})
    as (Hres & Hout & _).
  - apply empty_world_wf.
  - apply list_elem_of_In. simpl. tauto.
  - vm_compute. reflexivity.
  - reflexivity.
  - split; [exact Hres | exact Hout].
Defined.

Lemma forward_kwargs_lookup device kwargs k :
  forward_kwargs device kwargs !! k
  = match kwargs !! k with
    | Some (PTensor t) => Some (PTensor (tensor_to t device))
    | Some _ => Some (PStr k)
    | None => None
    end.
Proof.
  unfold forward_kwargs. rewrite map_lookup_imap.
  destruct (kwargs !! k) as [[] |]; done.
Qed.

(** C10. In a call of [summary] that reaches the forward call, the keyword
    arguments handed to [forward] have the keys of [kwargs]; under the key
    of a value that is not a tensor the value handed on is the key itself,
    as a string, and under the key of a tensor it is that tensor, moved to
    the device and otherwise unchanged. *)
Theorem non_tensor_kwarg_replaced_by_its_name env a w input_size x :
  wf_world w -> a_verbose a ∈ [0; 1; 2]%Z ->
  prepare_input a (device_of env a) = Ok (input_size, x) ->
  exists positional kw,
    w_calls (snd (summary env a w)) = w_calls w ++ [(positional, kw)]
    /\ kw = forward_kwargs (device_of env a) (a_kwargs a)
    /\ (forall k, kw !! k = None <-> a_kwargs a !! k = None)
    /\ (forall k v, a_kwargs a !! k = Some v -> is_tensor v = false ->
          kw !! k = Some (PStr k))
    /\ (forall k t, a_kwargs a !! k = Some (PTensor t) ->
          kw !! k = Some (PTensor (tensor_to t (device_of env a)))
          /\ t_device (tensor_to t (device_of env a)) = device_of env a
          /\ t_data (tensor_to t (device_of env a)) = t_data t
          /\ t_shape (tensor_to t (device_of env a)) = t_shape t
          /\ t_dtype (tensor_to t (device_of env a)) = t_dtype t).
Proof.
  intros Hwf Hv Hin.
  destruct (forward env (a_model a) (device_of env a)
              (map PTensor x ++ map (forward_arg (device_of env a)) (a_args a))
              (forward_kwargs (device_of env a) (a_kwargs a)))
    as [calls raised] eqn:Hfw.
  destruct (summary_pass env a w input_size x calls raised Hwf Hv Hin Hfw)
    as (_ & _ & _ & _ & _ & Hcalls).
  eexists _, _. split; [exact Hcalls |]. split; [done |].
  split; [| split].
  - intros k. rewrite forward_kwargs_lookup.
    destruct (a_kwargs a !! k) as [[] |]; done.
  - intros k v Hk Hv'. rewrite forward_kwargs_lookup, Hk.
    destruct v; done.
  - intros k t Hk. by rewrite forward_kwargs_lookup, Hk.
Qed.

Lemma non_tensor_kwarg_replaced_by_its_name_witness :
  exists positional kw,
    w_calls (snd (summary returning_env flag_args empty_world))
    = [(positional, kw)]
    /\ kw !! "flag"%string = Some (PStr "flag")
    /\ kw !! "mask"%string = Some (PTensor (tensor_to mask_tensor Cuda)).
Proof.
  destruct (non_tensor_kwarg_replaced_by_its_name returning_env flag_args
              empty_world [STuple [SInt 1; SInt 10]]
              [{| t_shape := [2; 1; 10]%Z; t_dtype := torch_float;
                  t_device := Cuda;
                  t_data := Cat [Unsqueeze (Rand [1; 10]%Z) 0;
                                 Unsqueeze (Rand [1; 10]%Z) 0] 0 |}])
    as (positional & kw & Hcalls & _ & _ & Hflag & Hmask).
  - apply empty_world_wf.
  - apply list_elem_of_In. simpl. tauto.
  - vm_compute. reflexivity.
  - exists positional, kw. split; [exact Hcalls |]. split.
    + apply (Hflag "flag"%string (PInt 7)); [| done].
      vm_compute. reflexivity.
    + apply (Hmask "mask"%string mask_tensor). vm_compute. reflexivity.
Defined.

(** C4: what the code does on a rejected input.  The walker has run before
    the input is looked at, and the failure is raised outside the [try]:
    the hook on the linear layer is still registered when [summary] has
    raised, for an empty shape list, for a dimension that is not positive,
    and for an input that is neither a tensor nor a list or tuple. *)
Theorem rejected_input_leaves_hooks_registered :
  fst (summary returning_env (args_for sequential_model (InSpec (SList [])) 3)
               empty_world) = raise AssertionError
  /\ w_hooks (snd (summary returning_env
                           (args_for sequential_model (InSpec (SList [])) 3)
                           empty_world))
     = [(0, entry 0 0 (Linear 2 [weight 10; bias 11], 1%Z))]
  /\ fst (summary returning_env
                  (args_for sequential_model
                            (InSpec (SList [SInt 3; SInt 0])) 3)
                  empty_world) = raise AssertionError
  /\ w_hooks (snd (summary returning_env
                           (args_for sequential_model
                                     (InSpec (SList [SInt 3; SInt 0])) 3)
                           empty_world))
     = [(0, entry 0 0 (Linear 2 [weight 10; bias 11], 1%Z))]
  /\ fst (summary returning_env (args_for sequential_model (InSpec (SInt 5)) 3)
                  empty_world) = raise TypeError
  /\ w_hooks (snd (summary returning_env
                           (args_for sequential_model (InSpec (SInt 5)) 3)
                           empty_world))
     = [(0, entry 0 0 (Linear 2 [weight 10; bias 11], 1%Z))].
Proof. vm_compute. by repeat split. Qed.

(** * Further properties of the code *)

(** ** [get_correct_input_sizes] and [flatten] *)

Lemma flatten_item_seq l :
  flatten_item (SList l) = flatten l /\ flatten_item (STuple l) = flatten l.
Proof.
  assert ((fix each (l : list size_spec) : list Z :=
             match l with
             | [] => []
             | x :: l' => flatten_item x ++ each l'
             end) l = flatten l) as Heach.
  { induction l as [|x l IH]; simpl; [done |]. by rewrite IH. }
  by split.
Qed.

Lemma flatten_app l1 l2 : flatten (l1 ++ l2) = flatten l1 ++ flatten l2.
Proof. apply flat_map_app. Qed.

Lemma flatten_ints zs : flatten (map SInt zs) = zs.
Proof. induction zs as [|z zs IH]; simpl; [done |]. by f_equal. Qed.

Lemma positive_dims_iff zs :
  forallb (fun size => (0 <? size)%Z) zs = true
  <-> Forall (fun z => (0 < z)%Z) zs.
Proof.
  rewrite forallb_forall, Forall_forall. split.
  - intros H z Hz. apply Z.ltb_lt, H. by apply list_elem_of_In.
  - intros H z Hz. apply Z.ltb_lt, H. by apply list_elem_of_In.
Qed.

Lemma get_correct_input_sizes_ok s l :
  s = SList l \/ s = STuple l ->
  l <> [] -> Forall (fun z => (0 < z)%Z) (flatten l) ->
  get_correct_input_sizes s
  = Ok match s with
       | STuple (STuple _ :: _) => l
       | STuple _ => [s]
       | SList (SInt _ :: _) => [STuple l]
       | _ => l
       end.
Proof.
  intros Hs Hne Hpos. apply positive_dims_iff in Hpos.
  destruct l as [|x l]; [done |].
  destruct Hs as [-> | ->]; unfold get_correct_input_sizes;
    cbn [is_empty]; rewrite Hpos; cbn [negb]; by destruct x.
Qed.

Lemma get_correct_input_sizes_rejects s l :
  s = SList l \/ s = STuple l ->
  l = [] \/ ~ Forall (fun z => (0 < z)%Z) (flatten l) ->
  get_correct_input_sizes s = raise AssertionError.
Proof.
  intros Hs Hbad.
  assert (is_empty l = true
          \/ forallb (fun size => (0 <? size)%Z) (flatten l) = false) as Hb.
  { destruct Hbad as [-> | Hbad]; [by left |]. right.
    destruct (forallb _ _) eqn:Hf; [| done].
    by apply positive_dims_iff in Hf. }
  destruct Hs as [-> | ->]; unfold get_correct_input_sizes;
    destruct (is_empty l); try done; destruct Hb as [? | ->]; done.
Qed.

(** X1. For a list or a tuple, [get_correct_input_sizes] succeeds exactly
    when the input is not empty and every dimension found by [flatten], at
    any nesting depth, is positive; it then returns a non-empty list with
    the same dimensions in the same order.  Otherwise it raises
    [AssertionError]: the [TypeError] of its last line is out of reach. *)
Theorem input_sizes_accepted_iff_nonempty_positive s l :
  s = SList l \/ s = STuple l ->
  (l <> [] /\ Forall (fun z => (0 < z)%Z) (flatten l) ->
   exists r, get_correct_input_sizes s = Ok r /\ r <> []
             /\ flatten r = flatten l)
  /\ (l = [] \/ ~ Forall (fun z => (0 < z)%Z) (flatten l) ->
      get_correct_input_sizes s = raise AssertionError)
  /\ get_correct_input_sizes s <> raise TypeError.
Proof.
  intros Hs.
  assert (l <> [] /\ Forall (fun z => (0 < z)%Z) (flatten l) ->
          exists r, get_correct_input_sizes s = Ok r /\ r <> []
                    /\ flatten r = flatten l) as Hok.
  { intros [Hne Hpos]. rewrite (get_correct_input_sizes_ok s l) by done.
    eexists. split; [reflexivity |].
    destruct (flatten_item_seq l) as [Hl Ht].
    destruct Hs as [-> | ->]; destruct l as [|[] l]; try done;
      (split; [done |]); cbn [flatten flat_map]; rewrite ?app_nil_r;
      try done; first [exact Hl | exact Ht]. }
  split; [exact Hok |]. split; [by apply get_correct_input_sizes_rejects |].
  destruct (decide (l = [])) as [Hl | Hl].
  { by rewrite (get_correct_input_sizes_rejects s l) by auto. }
  destruct (decide (Forall (fun z => (0 < z)%Z) (flatten l))) as [Hp | Hp].
  - destruct Hok as (r & -> & _); done.
  - by rewrite (get_correct_input_sizes_rejects s l) by auto.
Qed.

Lemma input_sizes_accepted_iff_nonempty_positive_witness :
  (exists r, get_correct_input_sizes (STuple [STuple [SInt 3; SInt 4];
                                              STuple [SInt 5]]) = Ok r
             /\ r <> [] /\ flatten r = [3; 4; 5]%Z)
  /\ get_correct_input_sizes (SList [SInt 3; SList [SInt 0]])
     = raise AssertionError.
Proof.
  split.
  - destruct (input_sizes_accepted_iff_nonempty_positive
                (STuple [STuple [SInt 3; SInt 4]; STuple [SInt 5]])
                [STuple [SInt 3; SInt 4]; STuple [SInt 5]]) as (Hok & _);
      [by right |].
    apply Hok. split; [done |]. repeat constructor.
  - destruct (input_sizes_accepted_iff_nonempty_positive
                (SList [SInt 3; SList [SInt 0]])
                [SInt 3; SList [SInt 0]]) as (_ & Hbad & _); [by left |].
    apply Hbad. right. intros H. simpl in H.
    apply Forall_cons in H as [_ H]. apply Forall_cons in H as [H _]. lia.
Defined.

(** X2. A flat list of positive ints and the tuple of the same ints stand
    for the same single input: both are normalised to the one-element list
    holding that tuple. *)
Theorem flat_list_and_tuple_normalise_alike dims :
  dims <> [] -> Forall (fun z => (0 < z)%Z) dims ->
  get_correct_input_sizes (SList (map SInt dims))
  = Ok [STuple (map SInt dims)]
  /\ get_correct_input_sizes (STuple (map SInt dims))
     = Ok [STuple (map SInt dims)].
Proof.
  intros Hne Hpos.
  assert (map SInt dims <> []) as Hne' by (by destruct dims).
  rewrite <- (flatten_ints dims) in Hpos. split.
  - rewrite (get_correct_input_sizes_ok _ (map SInt dims)) by auto.
    by destruct dims.
  - rewrite (get_correct_input_sizes_ok _ (map SInt dims)) by auto.
    by destruct dims.
Qed.

Lemma flat_list_and_tuple_normalise_alike_witness :
  get_correct_input_sizes (SList [SInt 1; SInt 10])
  = Ok [STuple [SInt 1; SInt 10]]
  /\ get_correct_input_sizes (STuple [SInt 1; SInt 10])
     = Ok [STuple [SInt 1; SInt 10]].
Proof.
  apply (flat_list_and_tuple_normalise_alike [1; 10]%Z);
    [done | repeat constructor].
Defined.

(** X3. The result of [get_correct_input_sizes] is in normal form: handed
    back as a list, it is returned unchanged. *)
Theorem input_sizes_normal_form s r :
  get_correct_input_sizes s = Ok r ->
  get_correct_input_sizes (SList r) = Ok r.
Proof.
  intros Hs.
  assert (exists l, (s = SList l \/ s = STuple l)) as (l & Hl).
  { destruct s as [z | l | l]; [| by exists l; left | by exists l; right].
    unfold get_correct_input_sizes in Hs. by destruct (z =? 0)%Z. }
  destruct (decide (l = [])) as [Hne | Hne].
  { rewrite (get_correct_input_sizes_rejects s l) in Hs by auto. done. }
  destruct (decide (Forall (fun z => (0 < z)%Z) (flatten l))) as [Hp | Hp];
    [| rewrite (get_correct_input_sizes_rejects s l) in Hs by auto; done].
  rewrite (get_correct_input_sizes_ok s l) in Hs by done.
  injection Hs as <-. destruct (flatten_item_seq l) as [Hfl Hft].
  destruct Hl as [-> | ->]; destruct l as [|[] l]; try done.
  all: rewrite (get_correct_input_sizes_ok _ _ (or_introl eq_refl));
    [done | done |]; cbn [flatten flat_map]; rewrite ?app_nil_r;
    first [exact Hp | by rewrite ?Hfl, ?Hft].
Qed.

Lemma input_sizes_normal_form_witness :
  get_correct_input_sizes (SList [STuple [SInt 1; SInt 10]])
  = Ok [STuple [SInt 1; SInt 10]].
Proof.
  apply (input_sizes_normal_form (SList [SInt 1; SInt 10])).
  vm_compute. reflexivity.
Defined.

(** ** [get_input_tensor] *)

Lemma map_result_Forall2 {A B} (f : A -> result B) l x :
  map_result f l = Ok x -> Forall2 (fun a b => f a = Ok b) l x.
Proof.
  revert x. induction l as [|a l IH]; intros x; simpl.
  - intros [= <-]. constructor.
  - destruct (f a) as [b | e] eqn:Hf; [| done]. simpl.
    destruct (map_result f l) as [bs | e]; [| done]. simpl.
    intros [= <-]. constructor; [done | by apply IH].
Qed.

Lemma input_tensor_of_placed batch_dim device size dtype t :
  input_tensor_of batch_dim device (size, dtype) = Ok t ->
  t_device t = device /\ t_dtype t = dtype.
Proof.
  unfold input_tensor_of.
  destruct (match size with SInt _ => _ | _ => _ end) as [t' | e]; [| done].
  simpl. by intros [= <-].
Qed.

Lemma get_input_tensor_inv input_size batch_dim dtypes device x :
  get_input_tensor input_size batch_dim dtypes device = Ok x ->
  length x = Nat.min (length input_size) (length dtypes)
  /\ forall i t, x !! i = Some t ->
       exists size dtype,
         input_size !! i = Some size /\ dtypes !! i = Some dtype
         /\ input_tensor_of batch_dim device (size, dtype) = Ok t
         /\ t_device t = device /\ t_dtype t = dtype.
Proof.
  unfold get_input_tensor. intros Hx. apply map_result_Forall2 in Hx.
  split.
  - apply Forall2_length in Hx. rewrite <- Hx. apply length_zip_with.
  - intros i t Hi.
    destruct (Forall2_lookup_r _ _ _ _ _ Hx Hi) as ([size dtype] & Hz & Ht).
    apply lookup_zip_with_Some in Hz as (s' & d' & [= <- <-] & Hs & Hd).
    exists size, dtype. split; [done |]. split; [done |]. split; [done |].
    by eapply input_tensor_of_placed.
Qed.

(** X4. When [get_input_tensor] succeeds it returns one tensor for each
    pair of [zip(input_size, dtypes)], in order: as many as the shorter of
    the two lists has entries, so a size without a dtype is dropped without
    an error.  Each tensor is on the given device and has the dtype it was
    paired with. *)
Theorem one_tensor_per_size_dtype_pair input_size batch_dim dtypes device x :
  get_input_tensor input_size batch_dim dtypes device = Ok x ->
  length x = Nat.min (length input_size) (length dtypes)
  /\ forall i t, x !! i = Some t ->
       exists size dtype,
         input_size !! i = Some size /\ dtypes !! i = Some dtype
         /\ input_tensor_of batch_dim device (size, dtype) = Ok t
         /\ t_device t = device /\ t_dtype t = dtype.
Proof. apply get_input_tensor_inv. Qed.

Lemma one_tensor_per_size_dtype_pair_witness :
  exists x,
    get_input_tensor [STuple [SInt 3]; STuple [SInt 4]] 0 [torch_float] Cpu
    = Ok x /\ length x = 1.
Proof.
  eexists. split; [vm_compute; reflexivity |].
  match goal with
  | |- length ?x = 1 =>
      destruct (one_tensor_per_size_dtype_pair
                  [STuple [SInt 3]; STuple [SInt 4]] 0 [torch_float] Cpu x)
        as [Hlen _]; [vm_compute; reflexivity | exact Hlen]
  end.
Defined.




(** X6. For a non-empty tuple of positive ints that fit 64 bits, the
    batch dimension goes where [batch_dim] says, counted from the front
    or, when negative, from the back: [batch_dim = 0] puts the 2 in front
    of the descriptor's dimensions, [batch_dim = -1] after them, and
    [batch_dim = len(size)] is the same place as [-1]. *)
Theorem batch_dim_counts_from_either_end dims device dtype :
  dims <> [] ->
  Forall (fun z => (0 < z)%Z) dims ->
  Forall (fun z => (z <= int64_max)%Z) dims ->
  (exists t, input_tensor_of 0 device (STuple (map SInt dims), dtype) = Ok t
             /\ t_shape t = 2%Z :: dims)
  /\ (exists t, input_tensor_of (-1) device (STuple (map SInt dims), dtype)
                = Ok t
                /\ t_shape t = dims ++ [2%Z])
  /\ (exists t, input_tensor_of (Z.of_nat (length dims)) device
                                (STuple (map SInt dims), dtype) = Ok t
                /\ t_shape t = dims ++ [2%Z]).
Proof.
  intros Hne Hpos Hmax.
  pose proof (torch_rand_ok dims Hne Hpos Hmax) as Hrand.
  split; [| split].
  - destruct (input_tensor_in_range (map SInt dims) dims 0 device dtype
                (STuple (map SInt dims))) as (t & k & Ht & _ & -> & Hs & _);
      [by right | done | lia |].
    exists t. split; [done |]. by rewrite Hs.
  - destruct (input_tensor_in_range (map SInt dims) dims (-1) device dtype
                (STuple (map SInt dims))) as (t & k & Ht & _ & -> & Hs & _);
      [by right | done | lia |].
    exists t. split; [done |]. rewrite Hs. cbn [Z.ltb Z.compare].
    replace (Z.to_nat (-1 + (Z.of_nat (length dims) + 1))) with (length dims)
      by lia.
    by rewrite firstn_all, drop_all.
  - destruct (input_tensor_in_range (map SInt dims) dims
                (Z.of_nat (length dims)) device dtype
                (STuple (map SInt dims))) as (t & k & Ht & _ & -> & Hs & _);
      [by right | done | lia |].
    exists t. split; [done |]. rewrite Hs.
    destruct (Z.of_nat (length dims) <? 0)%Z eqn:Hneg;
      [apply Z.ltb_lt in Hneg; lia |].
    rewrite Nat2Z.id. by rewrite firstn_all, drop_all.
Qed.

Lemma batch_dim_counts_from_either_end_witness :
  exists t, input_tensor_of (-1) Cpu (STuple [SInt 3; SInt 4], torch_float)
            = Ok t
            /\ t_shape t = [3; 4; 2]%Z.
Proof.
  destruct (batch_dim_counts_from_either_end [3; 4]%Z Cpu torch_float)
    as (_ & Hback & _);
    [done | repeat constructor | repeat constructor; unfold int64_max; lia
    | exact Hback].
Defined.

(** ** [summary]: the input *)

(** X7. A tensor given as [input_data] is accepted exactly when it has at
    least one dimension and no dimension of size zero; it is then passed
    on as it is, moved to the device, whatever [dtypes] and [batch_dim]
    say, and the input size reported is its own shape.  A 0-dimensional
    tensor or one with an empty dimension fails the assertions. *)
Theorem tensor_input_passed_on_unbatched a device t :
  a_input_data a = InTensor t ->
  (t_shape t <> [] /\ Forall (fun z => (0 < z)%Z) (t_shape t) ->
   prepare_input a device
   = Ok ([STuple (map SInt (t_shape t))], [tensor_to t device]))
  /\ (t_shape t = [] \/ In 0%Z (t_shape t) ->
      prepare_input a device = raise AssertionError).
Proof.
  intros Ha. unfold prepare_input. rewrite Ha. split.
  - intros [Hne Hpos].
    rewrite (get_correct_input_sizes_ok _ (map SInt (t_shape t)));
      [| by right | by destruct (t_shape t) | by rewrite flatten_ints].
    by destruct (t_shape t).
  - intros Hbad.
    rewrite (get_correct_input_sizes_rejects _ (map SInt (t_shape t)));
      [done | by right |].
    destruct Hbad as [-> | Hz]; [by left |]. right. rewrite flatten_ints.
    intros Hpos. rewrite Forall_forall in Hpos.
    apply list_elem_of_In, Hpos in Hz. lia.
Qed.

Lemma tensor_input_passed_on_unbatched_witness :
  prepare_input (args_for sequential_model (InTensor mask_tensor) 3) Cuda
  = Ok ([STuple [SInt 1; SInt 10]], [tensor_to mask_tensor Cuda]).
Proof.
  destruct (tensor_input_passed_on_unbatched
              (args_for sequential_model (InTensor mask_tensor) 3) Cuda
              mask_tensor) as [Hok _]; [done |].
  apply Hok. split; [done | repeat constructor].
Defined.

(** X8. With a list or tuple as [input_data] and no [dtypes], the device
    type is tested against ["cpu"] and ["gpu"] before the input is looked
    at.  A device of any other type, ["cuda"] included, which is also what
    [summary] picks by itself when CUDA is available, makes [summary] raise
    [ValueError], whatever the shapes are. *)
Theorem default_dtypes_reject_cuda env a w l :
  a_verbose a ∈ [0; 1; 2]%Z ->
  a_input_data a = InSpec (SList l) \/ a_input_data a = InSpec (STuple l) ->
  a_dtypes a = None ->
  (device_type (device_of env a) ∉ ["cpu"; "gpu"]%string ->
   fst (summary env a w) = raise ValueError)
  /\ (a_device a = None -> cuda_is_available env = true ->
      fst (summary env a w) = raise ValueError).
Proof.
  intros Hv Hin Hd.
  assert (device_type (device_of env a) ∉ ["cpu"; "gpu"]%string ->
          fst (summary env a w) = raise ValueError) as Hgen.
  { intros Hdev. rewrite (summary_rejected env a w
                            {| exn_cls := ValueError; exn_msg := EmptyString |});
      [done | done |].
    unfold prepare_input. rewrite Hd.
    destruct Hin as [-> | ->]; by rewrite bool_decide_eq_false_2. }
  split; [exact Hgen |]. intros Hnone Hcuda. apply Hgen.
  unfold device_of. rewrite Hnone, Hcuda. simpl.
  intros H. apply list_elem_of_In in H. simpl in H.
  destruct H as [H | [H | []]]; discriminate.
Qed.

Lemma default_dtypes_reject_cuda_witness :
  fst (summary {| cuda_is_available := true;
                  forward := forward returning_env |}
               (args_for sequential_model shape_1_10 3) empty_world)
  = raise ValueError.
Proof.
  destruct (default_dtypes_reject_cuda
              {| cuda_is_available := true; forward := forward returning_env |}
              (args_for sequential_model shape_1_10 3) empty_world
              [SInt 1; SInt 10]) as [_ Hcuda].
  - apply list_elem_of_In. simpl. tauto.
  - by left.
  - done.
  - by apply Hcuda.
Defined.

Lemma prepare_input_spec_inv a device l input_size x :
  a_input_data a = InSpec (SList l) \/ a_input_data a = InSpec (STuple l) ->
  prepare_input a device = Ok (input_size, x) ->
  exists s dtypes,
    (s = SList l \/ s = STuple l)
    /\ (a_dtypes a = Some dtypes
        \/ a_dtypes a = None /\ dtypes = replicate (length l) torch_float
           /\ device_type device ∈ ["cpu"; "gpu"]%string)
    /\ get_correct_input_sizes s = Ok input_size
    /\ get_input_tensor input_size (a_batch_dim a) dtypes device = Ok x.
Proof.
  intros Hin. unfold prepare_input.
  assert (forall s, s = SList l \/ s = STuple l ->
    (dtypes <-
       match a_dtypes a with
       | Some dtypes => Ok dtypes
       | None =>
           if bool_decide (device_type device ∈ ["cpu"; "gpu"]%string)
           then Ok (replicate (length l) torch_float)
           else raise ValueError
       end ;;
     input_size <- get_correct_input_sizes s ;;
     x <- get_input_tensor input_size (a_batch_dim a) dtypes device ;;
     Ok (input_size, x)) = Ok (input_size, x) ->
    exists s dtypes,
      (s = SList l \/ s = STuple l)
      /\ (a_dtypes a = Some dtypes
          \/ a_dtypes a = None /\ dtypes = replicate (length l) torch_float
             /\ device_type device ∈ ["cpu"; "gpu"]%string)
      /\ get_correct_input_sizes s = Ok input_size
      /\ get_input_tensor input_size (a_batch_dim a) dtypes device = Ok x)
    as Hbody.
  { intros s Hs Hres. exists s.
    destruct (a_dtypes a) as [dtypes |] eqn:Hd.
    - exists dtypes. cbn [bind] in Hres.
      destruct (get_correct_input_sizes s) as [sz | e] eqn:Hsz; [| done].
      cbn [bind] in Hres.
      destruct (get_input_tensor sz _ _ _) as [x' | e] eqn:Hx; [| done].
      injection Hres as <- <-.
      split; [done |]. split; [by left |]. by split.
    - case_bool_decide as Hdev; [| done]. cbn [bind] in Hres.
      exists (replicate (length l) torch_float).
      destruct (get_correct_input_sizes s) as [sz | e] eqn:Hsz; [| done].
      cbn [bind] in Hres.
      destruct (get_input_tensor sz _ _ _) as [x' | e] eqn:Hx; [| done].
      injection Hres as <- <-.
      split; [done |]. split; [by right |]. by split. }
  destruct Hin as [-> | ->]; apply Hbody; auto.
Qed.

(** X9. With a list or tuple as [input_data] and no [dtypes], an accepted
    input yields exactly one float tensor on the device for every
    normalised input size: the default [[torch.float] * len(input_data)] is
    never too short, so no input is dropped. *)
Theorem default_dtypes_cover_every_input a device l input_size x :
  a_input_data a = InSpec (SList l) \/ a_input_data a = InSpec (STuple l) ->
  a_dtypes a = None ->
  prepare_input a device = Ok (input_size, x) ->
  length x = length input_size
  /\ Forall (fun t => t_dtype t = torch_float /\ t_device t = device) x.
Proof.
  intros Hin Hd Hres.
  destruct (prepare_input_spec_inv a device l input_size x Hin Hres)
    as (s & dtypes & Hs & Hdt & Hsz & Hx).
  destruct Hdt as [Hdt | (_ & -> & _)]; [congruence |].
  destruct (get_input_tensor_inv _ _ _ _ _ Hx) as [Hlen Heach].
  assert (length input_size <= length l) as Hle.
  { destruct (decide (l = [])) as [Hl | Hl];
      [by rewrite (get_correct_input_sizes_rejects s l) in Hsz by auto |].
    destruct (decide (Forall (fun z => (0 < z)%Z) (flatten l))) as [Hp | Hp];
      [| by rewrite (get_correct_input_sizes_rejects s l) in Hsz by auto].
    rewrite (get_correct_input_sizes_ok s l) in Hsz by done.
    injection Hsz as <-.
    destruct Hs as [-> | ->]; destruct l as [|[] l]; simpl; done || lia. }
  split; [rewrite Hlen, length_replicate; lia |].
  apply Forall_forall. intros t Ht.
  apply list_elem_of_lookup in Ht as [i Hi].
  destruct (Heach i t Hi) as (size & dtype & _ & Hdt & _ & Hdev & Hty).
  apply lookup_replicate in Hdt as [-> _]. by split.
Qed.

Lemma default_dtypes_cover_every_input_witness :
  exists x,
    prepare_input (args_for sequential_model
                     (InSpec (STuple [STuple [SInt 3]; STuple [SInt 4]])) 3)
                  Cpu
    = Ok ([STuple [SInt 3]; STuple [SInt 4]], x)
    /\ length x = 2.
Proof.
  eexists. split; [vm_compute; reflexivity |].
  match goal with
  | |- length ?x = 2 =>
      destruct (default_dtypes_cover_every_input
                  (args_for sequential_model
                     (InSpec (STuple [STuple [SInt 3]; STuple [SInt 4]])) 3)
                  Cpu [STuple [SInt 3]; STuple [SInt 4]]
                  [STuple [SInt 3]; STuple [SInt 4]] x)
        as [Hlen _];
        [by right | done | vm_compute; reflexivity | exact Hlen]
  end.
Defined.

(** X10. A tuple of two or more elements whose first is a list is not
    taken for several inputs, as a tuple of tuples, a list of tuples or a
    list of lists are: it is normalised to a single input size, and
    [torch.rand] refuses a list among several arguments.  With default
    [dtypes] on a CPU the call ends in [TypeError].  A tuple holding one
    list only is a single input too, but [torch.rand] takes that list for
    the shape. *)
Theorem tuple_of_lists_is_one_input a device l0 rest :
  a_input_data a = InSpec (STuple (SList l0 :: rest)) ->
  a_dtypes a = None ->
  device_type device ∈ ["cpu"; "gpu"]%string ->
  Forall (fun z => (0 < z)%Z) (flatten (SList l0 :: rest)) ->
  get_correct_input_sizes (STuple (SList l0 :: rest))
  = Ok [STuple (SList l0 :: rest)]
  /\ (rest <> [] -> prepare_input a device = raise TypeError)
  /\ (rest = [] -> forall dims,
        l0 = map SInt dims -> dims <> [] ->
        Forall (fun z => (z <= int64_max)%Z) dims ->
        (- (Z.of_nat (length dims) + 1) <= a_batch_dim a
         <= Z.of_nat (length dims))%Z ->
        exists t, prepare_input a device = Ok ([STuple [SList l0]], [t])
                  /\ length (t_shape t) = S (length dims)).
Proof.
  intros Ha Hd Hdev Hpos.
  assert (get_correct_input_sizes (STuple (SList l0 :: rest))
          = Ok [STuple (SList l0 :: rest)]) as Hsz.
  { by rewrite (get_correct_input_sizes_ok _ (SList l0 :: rest)) by auto. }
  split; [exact Hsz |].
  unfold prepare_input. rewrite Ha, Hd, bool_decide_eq_true_2 by done.
  cbn [bind]. rewrite Hsz. cbn [bind]. split.
  - intros Hrest. destruct rest as [|r rest]; [done |].
    unfold get_input_tensor. cbn [length replicate zip_with map_result].
    by rewrite (input_tensor_rand_fails (SList l0 :: r :: rest)
                  {| exn_cls := TypeError; exn_msg := EmptyString |}
                  (a_batch_dim a) device torch_float
                  (STuple (SList l0 :: r :: rest)))
      by (by right || done).
  - intros -> dims -> Hne Hmax Hdim.
    destruct (flatten_item_seq (map SInt dims)) as [Hfl _].
    change (flatten [SList (map SInt dims)])
      with (flatten_item (SList (map SInt dims)) ++ []) in Hpos.
    rewrite app_nil_r, Hfl, flatten_ints in Hpos.
    destruct (input_tensor_in_range [SList (map SInt dims)] dims
                (a_batch_dim a) device torch_float
                (STuple [SList (map SInt dims)]))
      as (t & k & _ & Hx & _ & _ & Hlen & _); [by right | | done |].
    { apply rand_accepts; [| done]. cbn [rand_size].
      by apply map_result_dim_of, positive_dims_fit. }
    exists t. cbn [length replicate]. rewrite Hx. by split.
Qed.

Lemma tuple_of_lists_is_one_input_witness :
  prepare_input (args_for sequential_model
                   (InSpec (STuple [SList [SInt 3]; SList [SInt 4]])) 3) Cpu
  = raise TypeError.
Proof.
  destruct (tuple_of_lists_is_one_input
              (args_for sequential_model
                 (InSpec (STuple [SList [SInt 3]; SList [SInt 4]])) 3)
              Cpu [SInt 3] [SList [SInt 4]]) as (_ & Hres & _).
  - done.
  - done.
  - apply list_elem_of_In. simpl. tauto.
  - repeat constructor.
  - by apply Hres.
Defined.

(** ** [summary]: the pass and its result *)

(** X11. When the forward call returns, [summary] returns statistics built
    from the records of that pass, the normalised input size and the
    formatting options made of its own arguments, the display depth being
    the instrumentation depth.  It prints those very statistics once when
    [verbose] is 1 or 2, and nothing when [verbose] is 0. *)
Theorem summary_prints_what_it_returns env a w input_size x calls :
  wf_world w -> a_verbose a ∈ [0; 1; 2]%Z ->
  prepare_input a (device_of env a) = Ok (input_size, x) ->
  forward env (a_model a) (device_of env a)
          (map PTensor x ++ map (forward_arg (device_of env a)) (a_args a))
          (forward_kwargs (device_of env a) (a_kwargs a)) = (calls, None) ->
  exists stats,
    fst (summary env a w) = Ok stats
    /\ records stats = pass_records a calls
    /\ input_shape_descriptor stats = input_size
    /\ display_depth (render_policy stats) = a_depth a
    /\ verbosity (render_policy stats) = a_verbose a
    /\ (a_verbose a = 0%Z ->
        w_stdout (snd (summary env a w)) = w_stdout w)
    /\ (a_verbose a <> 0%Z ->
        w_stdout (snd (summary env a w)) = w_stdout w ++ [MsgResults stats]).
Proof.
  intros Hwf Hv Hin Hfw.
  destruct (summary_pass env a w input_size x calls None Hwf Hv Hin Hfw)
    as (Hres & _ & _ & _ & Hout & _).
  eexists. split; [exact Hres |]. repeat split.
  - intros Hz. rewrite Hout. unfold printed. rewrite Hz. simpl.
    by rewrite app_nil_r.
  - intros Hnz. rewrite Hout. unfold printed.
    assert ((0 <? a_verbose a)%Z = true) as ->; [| done].
    apply Z.ltb_lt. apply list_elem_of_In in Hv. simpl in Hv. lia.
Qed.

Lemma summary_prints_what_it_returns_witness :
  exists stats,
    fst (summary returning_env (args_for sequential_model shape_1_10 3)
                 empty_world) = Ok stats
    /\ w_stdout (snd (summary returning_env
                              (args_for sequential_model shape_1_10 3)
                              empty_world)) = [MsgResults stats].
Proof.
  destruct (summary_prints_what_it_returns returning_env
              (args_for sequential_model shape_1_10 3) empty_world
              [STuple [SInt 1; SInt 10]]
              [{| t_shape := [2; 1; 10]%Z; t_dtype := torch_float;
                  t_device := Cpu;
                  t_data := Cat [Unsqueeze (Rand [1; 10]%Z) 0;
                                 Unsqueeze (Rand [1; 10]%Z) 0] 0 |}]
              [(2%positive, out_tensor); (3%positive, out_tensor);
               (1%positive, out_tensor)])
    as (stats & Hres & _ & _ & _ & _ & _ & Hout).
  - apply empty_world_wf.
  - apply list_elem_of_In. simpl. tauto.
  - vm_compute. reflexivity.
  - reflexivity.
  - exists stats. split; [exact Hres |]. by apply Hout.
Defined.

(** X12. The positional arguments of the forward call are the input
    tensors followed by [args], in order; a tensor among [args] is moved
    to the device and anything else is handed on as it is, unlike a keyword
    argument. *)
Theorem positional_args_passed_through env a w input_size x :
  wf_world w -> a_verbose a ∈ [0; 1; 2]%Z ->
  prepare_input a (device_of env a) = Ok (input_size, x) ->
  exists positional kw,
    w_calls (snd (summary env a w)) = w_calls w ++ [(positional, kw)]
    /\ length positional = length x + length (a_args a)
    /\ (forall i t, x !! i = Some t -> positional !! i = Some (PTensor t))
    /\ (forall i v, a_args a !! i = Some v -> is_tensor v = false ->
          positional !! (length x + i) = Some v)
    /\ (forall i t, a_args a !! i = Some (PTensor t) ->
          positional !! (length x + i)
          = Some (PTensor (tensor_to t (device_of env a)))).
Proof.
  intros Hwf Hv Hin.
  destruct (forward env (a_model a) (device_of env a)
              (map PTensor x ++ map (forward_arg (device_of env a)) (a_args a))
              (forward_kwargs (device_of env a) (a_kwargs a)))
    as [calls raised] eqn:Hfw.
  destruct (summary_pass env a w input_size x calls raised Hwf Hv Hin Hfw)
    as (_ & _ & _ & _ & _ & Hcalls).
  eexists _, _. split; [exact Hcalls |].
  assert (length (map PTensor x) = length x) as Hlen by apply length_map.
  split; [by rewrite length_app, !length_map |]. split; [| split].
  - intros i t Hi. rewrite lookup_app_l
      by (rewrite Hlen; by eapply lookup_lt_Some).
    change (map PTensor x) with (PTensor <$> x).
    by rewrite list_lookup_fmap, Hi.
  - intros i v Hi Hnt. rewrite lookup_app_r by lia.
    rewrite Hlen, Nat.add_comm, Nat.add_sub.
    change (map (forward_arg (device_of env a)) (a_args a))
      with (forward_arg (device_of env a) <$> a_args a).
    rewrite list_lookup_fmap, Hi. by destruct v.
  - intros i t Hi. rewrite lookup_app_r by lia.
    rewrite Hlen, Nat.add_comm, Nat.add_sub.
    change (map (forward_arg (device_of env a)) (a_args a))
      with (forward_arg (device_of env a) <$> a_args a).
    by rewrite list_lookup_fmap, Hi.
Qed.

Lemma positional_args_passed_through_witness :
  exists positional kw,
    w_calls (snd (summary returning_env extra_args empty_world))
    = [(positional, kw)]
    /\ positional !! 1 = Some (PInt 3)
    /\ positional !! 2 = Some (PTensor (tensor_to mask_tensor Cuda)).
Proof.
  destruct (positional_args_passed_through returning_env extra_args
              empty_world [STuple [SInt 1; SInt 10]]
              [{| t_shape := [2; 1; 10]%Z; t_dtype := torch_float;
                  t_device := Cuda;
                  t_data := Cat [Unsqueeze (Rand [1; 10]%Z) 0;
                                 Unsqueeze (Rand [1; 10]%Z) 0] 0 |}])
    as (positional & kw & Hcalls & _ & _ & Hother & Htensor).
  - apply empty_world_wf.
  - apply list_elem_of_In. simpl. tauto.
  - vm_compute. reflexivity.
  - exists positional, kw. split; [exact Hcalls |]. split.
    + by apply (Hother 0 (PInt 3)).
    + by apply (Htensor 1 mask_tensor).
Defined.

(** X13. What [summary] returns or raises does not depend on what earlier
    calls left behind: hooks that an earlier call failed to remove fire
    into the record list of that earlier call, never into the list of the
    present one.  So after any earlier call, accepted or rejected, [summary]
    gives what it gives on a model without hooks. *)
Theorem summary_unaffected_by_earlier_calls env a env' a' w :
  wf_world w ->
  fst (summary env a w) = fst (summary env a empty_world)
  /\ fst (summary env a (snd (summary env' a' w)))
     = fst (summary env a empty_world).
Proof.
  intros Hwf. split.
  - apply summary_result_indep; [done | apply empty_world_wf].
  - apply summary_result_indep; [by apply summary_wf | apply empty_world_wf].
Qed.

Lemma summary_unaffected_by_earlier_calls_witness :
  w_hooks (snd (summary returning_env
                        (args_for sequential_model (InSpec (SList [])) 3)
                        empty_world)) <> []
  /\ fst (summary returning_env (args_for sequential_model shape_1_10 3)
                  (snd (summary returning_env
                                (args_for sequential_model (InSpec (SList []))
                                          3) empty_world)))
     = fst (summary returning_env (args_for sequential_model shape_1_10 3)
                    empty_world).
Proof.
  split; [vm_compute; discriminate |].
  apply (summary_unaffected_by_earlier_calls
           returning_env (args_for sequential_model shape_1_10 3)
           returning_env (args_for sequential_model (InSpec (SList [])) 3)
           empty_world empty_world_wf).
Defined.

(** X14. Whenever the preparation of the input fails, for whatever reason,
    [summary] raises that very error, prints nothing, does not call
    [forward], and leaves one more hook on the model for every node the
    walk instruments; the hooks that were there stay in front. *)
Theorem rejected_input_leaves_every_hook env a w e :
  a_verbose a ∈ [0; 1; 2]%Z ->
  prepare_input a (device_of env a) = Raise e ->
  fst (summary env a w) = Raise e
  /\ w_stdout (snd (summary env a w)) = w_stdout w
  /\ w_calls (snd (summary env a w)) = w_calls w
  /\ map snd (w_hooks (snd (summary env a w)))
     = map snd (w_hooks w)
       ++ installed (a_model a) (a_depth a) (w_next_obj w) (a_batch_dim a)
  /\ length (w_hooks (snd (summary env a w)))
     = length (w_hooks w)
       + length (walk (a_model a) (a_model a) (a_depth a) 0).
Proof.
  intros Hv Hin. rewrite (summary_rejected env a w e Hv Hin).
  unfold instrument. cbn [fst snd w_stdout w_calls w_hooks].
  repeat split.
  - rewrite map_app, installed_walk. f_equal.
    apply map_snd_zip. apply length_seq.
  - rewrite length_app, length_zip_with, length_seq, length_map. lia.
Qed.

Lemma rejected_input_leaves_every_hook_witness :
  length (w_hooks (snd (summary returning_env
                                (args_for nested_model (InSpec (SList [])) 3)
                                empty_world))) = 3.
Proof.
  destruct (rejected_input_leaves_every_hook returning_env
              (args_for nested_model (InSpec (SList [])) 3) empty_world
              {| exn_cls := AssertionError; exn_msg := EmptyString |})
    as (_ & _ & _ & _ & Hlen).
  - apply list_elem_of_In. simpl. tauto.
  - vm_compute. reflexivity.
  - rewrite Hlen. vm_compute. reflexivity.
Defined.

(** ** [apply_hooks] *)

(** X15. [apply_hooks] only adds: it appends to [hooks] one fresh handle
    for each hook it registers, appends those hooks to the ones already on
    the modules, and touches nothing else.  Removing the handles it handed
    back takes the model's hooks back to what they were. *)
Theorem apply_hooks_appends_and_is_undone module orig_model depth sink
    batch_dim curr_depth hooks w :
  wf_world w ->
  let n := length (walk module orig_model depth curr_depth) in
  let st := apply_hooks module orig_model depth sink batch_dim curr_depth
                        (hooks, w) in
  fst st = hooks ++ seq (w_next_handle w) n
  /\ map fst (w_hooks (snd st)) = map fst (w_hooks w) ++ seq (w_next_handle w) n
  /\ map snd (w_hooks (snd st))
     = map snd (w_hooks w)
       ++ map (entry sink batch_dim) (walk module orig_model depth curr_depth)
  /\ w_next_handle (snd st) = w_next_handle w + n
  /\ w_heap (snd st) = w_heap w /\ w_stdout (snd st) = w_stdout w
  /\ w_hooks (remove_all (seq (w_next_handle w) n) (snd st)) = w_hooks w.
Proof.
  intros Hwf n st. subst st.
  rewrite apply_hooks_walk, register_all_spec. cbn [fst snd].
  rewrite length_map. fold n. cbn [w_hooks w_next_handle w_heap w_stdout].
  split; [done |]. rewrite !map_app.
  rewrite map_fst_zip by (rewrite length_seq, length_map; done).
  rewrite map_snd_zip by (rewrite length_seq, length_map; done).
  repeat split.
  rewrite remove_all_spec. unfold set_hooks. cbn [w_hooks].
  pose proof (filter_restore (w_hooks w) (w_next_handle w)
                (map (entry sink batch_dim)
                     (walk module orig_model depth curr_depth))) as Hr.
  rewrite length_map in Hr. apply Hr.
  eapply Forall_impl; [exact Hwf |]. simpl. by intros he [? _].
Qed.

Lemma apply_hooks_appends_and_is_undone_witness :
  fst (apply_hooks nested_model nested_model 3 0 0 0 ([], empty_world))
  = [0; 1; 2]
  /\ w_hooks (remove_all [0; 1; 2]
                (snd (apply_hooks nested_model nested_model 3 0 0 0
                                  ([], empty_world)))) = [].
Proof.
  destruct (apply_hooks_appends_and_is_undone nested_model nested_model 3 0 0
              0 [] empty_world empty_world_wf)
    as (Hh & _ & _ & _ & _ & _ & Hundo).
  split; [exact Hh | exact Hundo].
Defined.

Lemma instrumented_leaf model :
  m_modules model = [] -> instrumented model model = true.
Proof.
  intros Hleaf. unfold instrumented, modules. rewrite named_modules_unfold.
  destruct (decide (m_id model ∈ ∅)) as [Hin | _];
    [by apply not_elem_of_empty in Hin |].
  rewrite Hleaf. simpl. unfold is_.
  rewrite bool_decide_eq_true_2 by done. simpl. by rewrite orb_true_r.
Qed.

Lemma length_run_hooks batch_dim fs :
  length (summary_list (run_hooks batch_dim fs empty_ctx)) = length fs.
Proof.
  rewrite <- (length_map (fun r => (depth r, identity r))).
  by rewrite run_hooks_call_order, length_map.
Qed.

(** X16. A model without submodules gets exactly one hook, on itself at
    depth 0, whatever [depth] is; a pass then leaves one record, of depth
    0, for each completed call of the model and none for any other
    module. *)
Theorem leaf_model_observed_at_depth_zero a sink calls :
  m_modules (a_model a) = [] ->
  installed (a_model a) (a_depth a) sink (a_batch_dim a)
  = [entry sink (a_batch_dim a) (a_model a, 0%Z)]
  /\ length (pass_records a calls)
     = length (List.filter
                 (fun call : positive * pyval =>
                    bool_decide (call.1 = m_id (a_model a))) calls)
  /\ Forall (fun r => li_module r = a_model a /\ depth r = 0%Z)
            (pass_records a calls).
Proof.
  intros Hleaf.
  assert (walk (a_model a) (a_model a) (a_depth a) 0 = [(a_model a, 0%Z)])
    as Hwalk.
  { rewrite walk_unfold, (instrumented_leaf _ Hleaf). unfold children.
    rewrite Hleaf. simpl. by destruct (0 <=? a_depth a)%Z. }
  split; [by rewrite installed_walk, Hwalk |]. split.
  - unfold pass_records. rewrite length_run_hooks, Hwalk.
    induction calls as [|call calls IH]; [done |].
    rewrite firings_cons, length_app, IH. unfold firings. simpl.
    destruct (decide (call.1 = m_id (a_model a))) as [Heq | Hne].
    + rewrite (bool_decide_eq_true_2 (m_id (a_model a) = call.1)) by done.
      by rewrite (bool_decide_eq_true_2 (call.1 = m_id (a_model a))).
    + rewrite (bool_decide_eq_false_2 (m_id (a_model a) = call.1))
        by congruence.
      by rewrite (bool_decide_eq_false_2 (call.1 = m_id (a_model a))).
  - apply Forall_forall. intros r Hr.
    apply pass_records_visited in Hr as [Hv Hi].
    assert ((li_module r, depth r)
              ∈ walk (a_model a) (a_model a) (a_depth a) 0) as Hin
      by (by apply walk_reaches).
    rewrite Hwalk in Hin. apply list_elem_of_singleton in Hin.
    by injection Hin as -> ->.
Qed.

Lemma leaf_model_observed_at_depth_zero_witness :
  installed (Linear 2 [weight 10; bias 11]) (-5) 0 0
  = [entry 0 0 (Linear 2 [weight 10; bias 11], 0%Z)].
Proof.
  destruct (leaf_model_observed_at_depth_zero
              (args_for (Linear 2 [weight 10; bias 11]) shape_1_10 (-5)) 0 [])
    as [Hh _]; [done | exact Hh].
Defined.

(** X17. With a negative [depth] the walker never goes below the root: the
    only hook there can be is the root's own, and every record of a pass
    is a record of the root at depth 0.  For a container that is not of an
    atomic type this means no record at all. *)
Theorem negative_depth_observes_only_root a sink calls :
  (a_depth a < 0)%Z ->
  installed (a_model a) (a_depth a) sink (a_batch_dim a)
  = (if instrumented (a_model a) (a_model a)
     then [entry sink (a_batch_dim a) (a_model a, 0%Z)] else [])
  /\ Forall (fun r => li_module r = a_model a /\ depth r = 0%Z)
            (pass_records a calls)
  /\ (instrumented (a_model a) (a_model a) = false ->
      pass_records a calls = []).
Proof.
  intros Hneg.
  assert (walk (a_model a) (a_model a) (a_depth a) 0
          = if instrumented (a_model a) (a_model a)
            then [(a_model a, 0%Z)] else []) as Hwalk.
  { rewrite walk_unfold.
    assert ((0 <=? a_depth a)%Z = false) as -> by (apply Z.leb_gt; lia).
    apply app_nil_r. }
  assert (Forall (fun r => li_module r = a_model a /\ depth r = 0%Z)
                 (pass_records a calls)) as Hall.
  { apply Forall_forall. intros r Hr.
    apply pass_records_visited in Hr as [Hv _].
    apply visited_path in Hv as (n & Hp & Hd & Hn).
    assert (n = 0) as -> by lia. split; [by apply path_zero | done]. }
  split; [| split; [exact Hall |]].
  - rewrite installed_walk, Hwalk. by destruct (instrumented _ _).
  - intros Hno. destruct (pass_records a calls) as [|r rs] eqn:Hrs; [done |].
    assert (r ∈ pass_records a calls) as Hr by (rewrite Hrs; by left).
    apply pass_records_visited in Hr as [_ Hi].
    apply Forall_cons in Hall as [[Hm _] _]. rewrite Hm in Hi. congruence.
Qed.

Lemma negative_depth_observes_only_root_witness :
  pass_records (args_for sequential_model shape_1_10 (-1))
               [(2%positive, out_tensor); (1%positive, out_tensor)] = [].
Proof.
  destruct (negative_depth_observes_only_root
              (args_for sequential_model shape_1_10 (-1)) 0
              [(2%positive, out_tensor); (1%positive, out_tensor)])
    as (_ & _ & Hnone); [simpl; lia |].
  apply Hnone. vm_compute. reflexivity.
Defined.

Lemma sublist_flat_map {A B} (f g : A -> list B) l :
  Forall (fun a => f a `sublist_of` g a) l ->
  flat_map f l `sublist_of` flat_map g l.
Proof.
  induction 1 as [|a l Ha _ IH]; simpl; [done |]. by apply sublist_app.
Qed.

Lemma walk_monotone orig_model depth depth' module :
  (depth <= depth')%Z ->
  forall d, walk module orig_model depth d
            `sublist_of` walk module orig_model depth' d.
Proof.
  intros Hle. induction module as [i mro ps subs IH] using nn_Module_ind'.
  intros d. rewrite !walk_unfold. apply sublist_app; [done |].
  destruct (d <=? depth)%Z eqn:Hd; [| apply sublist_nil_l].
  assert ((d <=? depth')%Z = true) as ->
    by (apply Z.leb_le; apply Z.leb_le in Hd; lia).
  apply sublist_flat_map. apply Forall_forall. intros c Hc.
  apply children_registered in Hc. rewrite Forall_forall in IH.
  by apply IH.
Qed.

Lemma sublist_map {A B} (f : A -> B) l1 l2 :
  l1 `sublist_of` l2 -> map f l1 `sublist_of` map f l2.
Proof. induction 1; simpl; by constructor. Qed.

Lemma sublist_bfilter {A} (f : A -> bool) l1 l2 :
  l1 `sublist_of` l2 -> List.filter f l1 `sublist_of` List.filter f l2.
Proof.
  induction 1 as [| x l1 l2 _ IH | x l1 l2 _ IH]; simpl.
  - constructor.
  - destruct (f x); [by constructor | done].
  - destruct (f x); [by constructor | done].
Qed.

Lemma firings_monotone ws ws' calls :
  ws `sublist_of` ws' -> firings ws calls `sublist_of` firings ws' calls.
Proof.
  intros Hsub. unfold firings. apply sublist_flat_map.
  apply Forall_forall. intros call _.
  by apply sublist_map, sublist_bfilter.
Qed.

(** X18. Raising [depth] only adds hooks: the hooks installed for a depth
    are, in the same order, among those installed for any greater depth;
    so for the same forward pass a greater depth never gives fewer
    records. *)
Theorem deeper_walk_keeps_shallower_hooks model depth depth' sink batch_dim
    calls :
  (depth <= depth')%Z ->
  installed model depth sink batch_dim
  `sublist_of` installed model depth' sink batch_dim
  /\ length (summary_list
               (run_hooks batch_dim (firings (walk model model depth 0) calls)
                          empty_ctx))
     <= length (summary_list
                  (run_hooks batch_dim
                     (firings (walk model model depth' 0) calls) empty_ctx)).
Proof.
  intros Hle. split.
  - rewrite !installed_walk. apply sublist_map. by apply walk_monotone.
  - rewrite !length_run_hooks. apply sublist_length, firings_monotone.
    by apply walk_monotone.
Qed.

Lemma deeper_walk_keeps_shallower_hooks_witness :
  installed nested_model 0 0 0 `sublist_of` installed nested_model 3 0 0.
Proof.
  destruct (deeper_walk_keeps_shallower_hooks nested_model 0 3 0 0 [])
    as [Hsub _]; [lia | exact Hsub].
Defined.

(** ** The records of a pass *)

Lemma NoDup_keyed_pairs {A} (key g : A -> Z) (l : list A) :
  (forall d, NoDup (map g (List.filter (fun r => bool_decide (key r = d)) l)))
  -> NoDup (map (fun r => (key r, g r)) l).
Proof.
  induction l as [|r l IH]; intros Hd; simpl; [constructor |].
  constructor.
  - intros Hin. apply list_elem_of_fmap in Hin as (r' & Heq & Hr').
    injection Heq as Hk Hg. specialize (Hd (key r)). simpl in Hd.
    rewrite bool_decide_eq_true_2 in Hd by done. simpl in Hd.
    apply NoDup_cons in Hd as [Hnot _]. apply Hnot.
    apply list_elem_of_fmap. exists r'. split; [done |].
    apply list_elem_of_In, filter_In. split; [by apply list_elem_of_In |].
    by apply bool_decide_eq_true.
  - apply IH. intros d. specialize (Hd d). simpl in Hd.
    case_bool_decide; [| done]. simpl in Hd. by apply NoDup_cons in Hd as [_ ?].
Qed.

(** X19. In any pass, a record is identified by its depth and its order:
    no two records share both, and the order of a record lies between 1
    and the number of records at its depth. *)
Theorem depth_and_order_identify_a_record batch_dim fs r :
  NoDup (map (fun r => (depth r, order r))
             (summary_list (run_hooks batch_dim fs empty_ctx)))
  /\ (r ∈ summary_list (run_hooks batch_dim fs empty_ctx) ->
      (1 <= order r
       <= Z.of_nat (length (at_depth (depth r)
                              (summary_list
                                 (run_hooks batch_dim fs empty_ctx)))))%Z).
Proof.
  set (rs := summary_list (run_hooks batch_dim fs empty_ctx)).
  assert (forall d, map order (at_depth d rs)
                    = map Z.of_nat (seq 1 (length (at_depth d rs)))) as Hseq.
  { intros d. by destruct (run_hooks_counters batch_dim fs d) as [_ ?]. }
  split.
  - apply NoDup_keyed_pairs. intros d. fold (at_depth d rs). rewrite Hseq.
    apply (NoDup_fmap_2 Z.of_nat), NoDup_seq.
  - intros Hr.
    assert (order r ∈ map order (at_depth (depth r) rs)) as Hin.
    { apply list_elem_of_fmap. exists r. split; [done |].
      apply list_elem_of_In, filter_In. split; [by apply list_elem_of_In |].
      by apply bool_decide_eq_true. }
    rewrite Hseq in Hin. apply list_elem_of_fmap in Hin as (k & -> & Hk).
    apply list_elem_of_In, in_seq in Hk. lia.
Qed.

Lemma depth_and_order_identify_a_record_witness :
  exists r,
    pass_records (args_for tied_model shape_1_10 3)
                 [(2%positive, out_tensor); (3%positive, out_tensor)] !! 1
    = Some r
    /\ (1 <= order r <= 2)%Z.
Proof.
  eexists. split; [vm_compute; reflexivity |].
  match goal with
  | |- (1 <= order ?r <= 2)%Z =>
      destruct (depth_and_order_identify_a_record 0
                  (firings (walk tied_model tied_model 3 0)
                           [(2%positive, out_tensor); (3%positive, out_tensor)])
                  r) as [_ Hb];
      assert (Z.of_nat
                (length
                   (at_depth (depth r)
                      (summary_list
                         (run_hooks 0
                            (firings (walk tied_model tied_model 3 0)
                               [(2%positive, out_tensor);
                                (3%positive, out_tensor)]) empty_ctx))))
              = 2%Z) as Hlen by (vm_compute; reflexivity);
      exact (eq_ind _ (fun n => (1 <= order r <= n)%Z)
                    (Hb ltac:(apply (list_elem_of_lookup_2 _ 1);
                              vm_compute; reflexivity)) _ Hlen)
  end.
Defined.

Lemma map_identity_hooks (i : positive) (outputs : pyval) ws :
  map (fun f : firing => m_id f.1.2)
      (map (fun md : nn_Module * Z => (md.2, md.1, outputs))
           (List.filter (fun md : nn_Module * Z => bool_decide (m_id md.1 = i))
                        ws))
  = replicate
      (length (List.filter
                 (fun md : nn_Module * Z => bool_decide (m_id md.1 = i)) ws))
      i.
Proof.
  induction ws as [|md ws IH]; simpl; [done |].
  case_bool_decide as Hid; simpl; [by rewrite IH, Hid | exact IH].
Qed.

Lemma map_identity_firings ws calls :
  map (fun f : firing => m_id f.1.2) (firings ws calls)
  = flat_map
      (fun call : positive * pyval =>
         replicate
           (length (List.filter
                      (fun md : nn_Module * Z => bool_decide (m_id md.1 = call.1))
                      ws)) call.1) calls.
Proof.
  induction calls as [|call calls IH]; [done |].
  rewrite firings_cons, map_app, IH. simpl. f_equal.
  unfold firings. simpl. rewrite app_nil_r. apply map_identity_hooks.
Qed.

Lemma map_identity_pass_records a calls :
  map identity (pass_records a calls)
  = flat_map (fun call : positive * pyval =>
                replicate (hooks_count a call.1) call.1) calls.
Proof.
  unfold pass_records, hooks_count. rewrite <- map_identity_firings.
  pose proof (run_hooks_call_order (a_batch_dim a)
                (firings (walk (a_model a) (a_model a) (a_depth a) 0) calls))
    as Hco.
  apply (f_equal (map snd)) in Hco. rewrite !map_map in Hco. exact Hco.
Qed.

(** X20. The records of a pass follow the module calls: for each completed
    call, in order, there is one record for each hook on that module, with
    the module's identity.  A module that is not called leaves no record,
    and neither does a call of a module without a hook. *)
Theorem records_follow_the_calls a calls :
  map identity (pass_records a calls)
  = flat_map (fun call : positive * pyval =>
                replicate (hooks_count a call.1) call.1) calls
  /\ (forall i, i ∈ map identity (pass_records a calls) ->
        i ∈ map fst calls /\ 0 < hooks_count a i).
Proof.
  pose proof (map_identity_pass_records a calls) as Heq.
  split; [exact Heq |]. intros i Hi. rewrite Heq in Hi.
  apply list_elem_of_In, in_flat_map in Hi as (call & Hc & Hi).
  apply list_elem_of_In, elem_of_replicate in Hi as [-> Hn]. split.
  - apply list_elem_of_fmap. exists call. split; [done |].
    by apply list_elem_of_In.
  - lia.
Qed.

Lemma records_follow_the_calls_witness :
  ~ 3%positive ∈ map identity
      (pass_records (args_for tied_model shape_1_10 3)
                    [(2%positive, out_tensor); (1%positive, out_tensor)]).
Proof.
  intros Hin.
  destruct (records_follow_the_calls (args_for tied_model shape_1_10 3)
              [(2%positive, out_tensor); (1%positive, out_tensor)])
    as [_ Hsub].
  apply Hsub in Hin as [Hin _]. apply list_elem_of_In in Hin. simpl in Hin.
  destruct Hin as [H | [H | []]]; discriminate.
Defined.

(** ** Models without shared modules *)

Lemma unique_by_sublist {A} (key : A -> positive) l memo :
  unique_by key l memo `sublist_of` l.
Proof.
  revert memo. induction l as [|x l IH]; intros memo; simpl; [done |].
  destruct (decide (key x ∈ memo)); by constructor.
Qed.

Lemma flat_map_sublist {A B} (f : A -> list B) l1 l2 :
  l1 `sublist_of` l2 -> flat_map f l1 `sublist_of` flat_map f l2.
Proof.
  induction 1 as [| x l1 l2 _ IH | x l1 l2 _ IH]; simpl.
  - done.
  - by apply sublist_app.
  - by apply sublist_inserts_l.
Qed.

Lemma walk_below orig_model depth module d (md : nn_Module * Z) :
  md ∈ walk module orig_model depth d ->
  m_id md.1 ∈ all_ids module.
Proof.
  destruct md as [m' d']. intros H. apply walk_reaches in H as [H _].
  apply reaches_path in H as (n & Hp & _). simpl. unfold all_ids.
  apply path_descendant in Hp as [[_ ->] | [_ Hp]]; [by left |].
  right. apply list_elem_of_fmap. by exists m'.
Qed.

Lemma filter_key_NoDup {A} (key : A -> positive) (i : positive) (l : list A) :
  NoDup (map key l) ->
  length (List.filter (fun x => bool_decide (key x = i)) l) <= 1.
Proof.
  induction l as [|x l IH]; simpl; intros Hnd; [lia |].
  apply NoDup_cons in Hnd as [Hx Hnd]. specialize (IH Hnd).
  case_bool_decide as Hi; simpl; [| done].
  destruct (List.filter _ l) as [|y l'] eqn:Hf; [simpl; lia |].
  exfalso. apply Hx.
  assert (In y (List.filter (fun x => bool_decide (key x = i)) l)) as Hy
    by (rewrite Hf; by left).
  apply filter_In in Hy as [Hy Hk]. apply bool_decide_eq_true in Hk.
  apply list_elem_of_fmap. exists y. split; [congruence |].
  by apply list_elem_of_In.
Qed.

Section UniqueModules.
Variables (orig_model : nn_Module) (depth : Z).

Let ids (l : list (nn_Module * Z)) : list positive :=
  map (fun md : nn_Module * Z => m_id md.1) l.

Lemma flat_walk_NoDup d cs :
  Forall (fun c => NoDup (all_ids c) ->
                   NoDup (ids (walk c orig_model depth d))) cs ->
  NoDup (map m_id (flat_map (fun c => c :: descendants c) cs)) ->
  NoDup (ids (flat_map (fun c => walk c orig_model depth d) cs))
  /\ forall i, i ∈ ids (flat_map (fun c => walk c orig_model depth d) cs) ->
               i ∈ map m_id (flat_map (fun c => c :: descendants c) cs).
Proof.
  induction 1 as [|c cs Hc _ IH]; simpl; intros Hnd.
  - split; [constructor | done].
  - rewrite map_app in Hnd. simpl in Hnd.
    change (m_id c :: map m_id (descendants c)) with (all_ids c) in Hnd.
    change (m_id c :: map m_id (descendants c)
            ++ map m_id (flat_map (fun c => c :: descendants c) cs))
      with (all_ids c
            ++ map m_id (flat_map (fun c => c :: descendants c) cs)) in Hnd.
    apply NoDup_app in Hnd as (Hc' & Hdisj & Hrest).
    destruct (IH Hrest) as [IHnd IHsub].
    assert (forall i, i ∈ ids (walk c orig_model depth d) -> i ∈ all_ids c)
      as Hsub.
    { intros i Hi. apply list_elem_of_fmap in Hi as (md & -> & Hmd).
      by eapply walk_below. }
    unfold ids in *. rewrite map_app. split.
    + apply NoDup_app. split; [by apply Hc |]. split; [| done].
      intros i Hi Hi'. apply (Hdisj i); [by apply Hsub | by apply IHsub].
    + intros i Hi. apply elem_of_app in Hi as [Hi | Hi].
      * change (m_id c :: map m_id (descendants c ++ flat_map
                  (fun c => c :: descendants c) cs))
          with (map m_id ((c :: descendants c) ++ flat_map
                  (fun c => c :: descendants c) cs)).
        rewrite map_app. apply elem_of_app. left. by apply Hsub.
      * change (m_id c :: map m_id (descendants c ++ flat_map
                  (fun c => c :: descendants c) cs))
          with (map m_id ((c :: descendants c) ++ flat_map
                  (fun c => c :: descendants c) cs)).
        rewrite map_app. apply elem_of_app. right. by apply IHsub.
Qed.

Lemma walk_NoDup module :
  NoDup (all_ids module) ->
  forall d, NoDup (ids (walk module orig_model depth d)).
Proof using Type.
  induction module as [i mro ps subs IH] using nn_Module_ind'.
  intros Hnd d. set (m := mkModule i mro ps subs) in *.
  rewrite walk_unfold. unfold ids. rewrite map_app.
  unfold all_ids in Hnd. apply NoDup_cons in Hnd as [Hroot Hdesc].
  rewrite descendants_unfold in Hroot, Hdesc. simpl m_modules in *.
  destruct (flat_walk_NoDup (d + 1) subs) as [Hall Hsub]; [| done |].
  { eapply Forall_impl; [exact IH |]. simpl. intros c Hc Hndc. by apply Hc. }
  assert (map (fun md : nn_Module * Z => m_id md.1)
              (flat_map (fun child => walk child orig_model depth (d + 1))
                        (children m))
          `sublist_of`
          ids (flat_map (fun c => walk c orig_model depth (d + 1)) subs))
    as Hchildren.
  { apply sublist_map, flat_map_sublist. apply unique_by_sublist. }
  apply NoDup_app. split; [| split].
  - destruct (instrumented m orig_model); simpl;
      [apply NoDup_singleton | constructor].
  - intros j Hj Hj'. destruct (instrumented m orig_model); [| by inversion Hj].
    simpl in Hj. apply list_elem_of_singleton in Hj. subst j.
    destruct (d <=? depth)%Z; [| by inversion Hj'].
    apply Hroot, Hsub. by apply (sublist_subseteq _ _ Hchildren).
  - destruct (d <=? depth)%Z; [| constructor].
    by eapply sublist_NoDup.
Qed.
End UniqueModules.

(** X21. In a model where no module object occurs twice, no module gets
    two hooks, so every completed module call leaves at most one record:
    a pass has no more records than calls. *)
Theorem unshared_modules_hooked_once a sink calls :
  NoDup (all_ids (a_model a)) ->
  NoDup (map (fun e => m_id (he_module e))
             (installed (a_model a) (a_depth a) sink (a_batch_dim a)))
  /\ (forall i, hooks_count a i <= 1)
  /\ length (pass_records a calls) <= length calls.
Proof.
  intros Hnd.
  pose proof (walk_NoDup (a_model a) (a_depth a) (a_model a) Hnd 0) as Hw.
  assert (forall i, hooks_count a i <= 1) as Hone.
  { intros i. unfold hooks_count.
    by apply (filter_key_NoDup (fun md : nn_Module * Z => m_id md.1)). }
  split; [| split; [exact Hone |]].
  - rewrite installed_walk, map_map. exact Hw.
  - rewrite <- (length_map identity).
    rewrite map_identity_pass_records.
    induction calls as [|call calls IH]; simpl; [lia |].
    rewrite length_app, length_replicate. specialize (Hone call.1). lia.
Qed.

Lemma unshared_modules_hooked_once_witness :
  length (pass_records (args_for nested_model shape_1_10 3)
                       [(2%positive, out_tensor); (2%positive, out_tensor)])
  <= 2.
Proof.
  destruct (unshared_modules_hooked_once
              (args_for nested_model shape_1_10 3) 0
              [(2%positive, out_tensor); (2%positive, out_tensor)])
    as (_ & _ & Hlen); [| exact Hlen].
  apply (bool_decide_unpack _). vm_compute. exact I.
Defined.

Lemma run_hooks_identity batch_dim fs :
  Forall (fun r => identity r = m_id (li_module r))
         (summary_list (run_hooks batch_dim fs empty_ctx)).
Proof.
  induction fs as [|f fs IH] using rev_ind; [constructor |].
  rewrite run_hooks_snoc.
  destruct (hook_list f.1.1 batch_dim f.1.2 f.2
              (run_hooks batch_dim fs empty_ctx))
    as (info & -> & _ & _ & Hi & Hm & _).
  apply Forall_app. split; [done |]. constructor; [| constructor].
  by rewrite Hi, Hm.
Qed.

(** X22. Being of an atomic type earns a module its hook but does not stop
    the walk: when the model is a [MultiheadAttention] and [depth >= 0], the
    model is hooked at depth 0 and each of its children is hooked at depth
    1 as well. *)
Theorem atomic_model_and_its_children_hooked model depth sink batch_dim :
  isinstance model LAYER_MODULES = true -> (0 <= depth)%Z ->
  entry sink batch_dim (model, 0%Z) ∈ installed model depth sink batch_dim
  /\ forall c, c ∈ children model -> m_id c <> m_id model ->
       entry sink batch_dim (c, 1%Z) ∈ installed model depth sink batch_dim.
Proof.
  intros Hatomic Hd. split.
  - apply elem_of_installed. exists model, 0%Z.
    split; [done |]. split; [constructor |].
    unfold instrumented. rewrite Hatomic. by rewrite orb_true_r.
  - intros c Hc Hne. apply elem_of_installed. exists c, 1%Z.
    split; [done |]. split; [| by apply instrumented_not_root].
    eapply reaches_child; [lia | done | constructor].
Qed.

Lemma atomic_model_and_its_children_hooked_witness :
  installed attention_model 3 0 0
  = [entry 0 0 (attention_model, 0%Z);
     entry 0 0 (Linear 2 [weight 20; bias 21], 1%Z)]
  /\ entry 0 0 (Linear 2 [weight 20; bias 21], 1%Z)
       ∈ installed attention_model 3 0 0.
Proof.
  split; [vm_compute; reflexivity |].
  destruct (atomic_model_and_its_children_hooked attention_model 3 0 0)
    as [_ Hc]; [vm_compute; reflexivity | lia |].
  apply Hc; [| done]. apply list_elem_of_In. vm_compute. by left.
Defined.

(** X23. A model that has submodules and is not of an atomic type never
    shows up in its own summary: it gets no hook, so its own call, the
    last of every pass, leaves no record. *)
Theorem container_model_leaves_no_record a sink calls :
  not_below_itself (a_model a) ->
  isinstance (a_model a) LAYER_MODULES = false ->
  m_modules (a_model a) <> [] ->
  Forall (fun e => m_id (he_module e) <> m_id (a_model a))
         (installed (a_model a) (a_depth a) sink (a_batch_dim a))
  /\ Forall (fun r => identity r <> m_id (a_model a)) (pass_records a calls)
  /\ hooks_count a (m_id (a_model a)) = 0.
Proof.
  intros Hwf Hatomic Hsubs.
  assert (forall m d, visited (a_model a) (a_depth a) m d ->
            instrumented m (a_model a) = true ->
            m_id m <> m_id (a_model a)) as Hne.
  { intros m d Hv Hi Hid.
    apply instrumented_iff in Hi as [Hi | [Hi | Hi]].
    - done.
    - rewrite (visited_same_id _ _ _ _ Hwf Hv Hid) in Hi. congruence.
    - rewrite (visited_same_id _ _ _ _ Hwf Hv Hid) in Hi.
      rewrite descendants_unfold in Hi.
      destruct (m_modules (a_model a)); [done | inversion Hi].
    - intros _. by rewrite (visited_same_id _ _ _ _ Hwf Hv Hid). }
  split; [| split].
  - apply Forall_forall. intros e He.
    apply elem_of_installed in He as (m & d & -> & Hv & Hi). simpl.
    by eapply Hne.
  - apply Forall_forall. intros r Hr.
    assert (identity r = m_id (li_module r)) as ->.
    { pose proof (run_hooks_identity (a_batch_dim a)
                    (firings (walk (a_model a) (a_model a) (a_depth a) 0)
                             calls)) as Hid.
      rewrite Forall_forall in Hid. by apply Hid. }
    apply pass_records_visited in Hr as [Hv Hi]. by eapply Hne.
  - unfold hooks_count.
    destruct (List.filter _ _) as [|md l] eqn:Hf; [done |].
    assert (In md (List.filter
                     (fun md : nn_Module * Z =>
                        bool_decide (m_id md.1 = m_id (a_model a)))
                     (walk (a_model a) (a_model a) (a_depth a) 0))) as Hmd
      by (rewrite Hf; by left).
    apply filter_In in Hmd as [Hmd Hid]. apply bool_decide_eq_true in Hid.
    destruct md as [m d]. apply list_elem_of_In, walk_reaches in Hmd as [Hv Hi].
    exfalso. by apply (Hne m d Hv Hi).
Qed.

Lemma container_model_leaves_no_record_witness :
  Forall (fun r => identity r <> 1%positive)
         (pass_records (args_for sequential_model shape_1_10 3)
                       [(2%positive, out_tensor); (1%positive, out_tensor)]).
Proof.
  destruct (container_model_leaves_no_record
              (args_for sequential_model shape_1_10 3) 0
              [(2%positive, out_tensor); (1%positive, out_tensor)])
    as (_ & Hrec & _).
  - repeat constructor. done.
  - vm_compute. reflexivity.
  - done.
  - exact Hrec.
Defined.
